(** * The controlled [deepPopulate] middleware of the Strapi backend

    Shallow embedding of the populate-depth resolver of the demo site:
    [extractPathSegment], [DEPTH_CONFIG], [getPathKey],
    [shouldStopAtCurrentDepth], [getDeepPopulate] and the exported
    middleware factory.

    Conventions of the embedding.
    - JavaScript strings are [string]; numbers that count depth are [Z].
    - [Set<string>] is a [gset string] (and, where mutation matters, a
      reference into a store of such sets); the objects used as lookup tables
      ([DEPTH_CONFIG.pathDepths], [excludeFields], [includeOnlyFields], the
      schema registry behind [strapi.getModel]) are [gmap]s of their own
      properties.
    - [DEPTH_CONFIG.pathDepths] is an object literal, so [pathDepths[key]]
      also finds the members it inherits from [Object.prototype]: the lookup
      [lookupProperty] follows the prototype chain. [includeOnlyFields] is
      only ever indexed by a key with a dot in it and [excludeFields] by a
      type identifier ([api::name.name], [category.name]); no member of
      [Object.prototype] has such a name.
    - Object literals built by the code are association lists in insertion
      order; [obj_set] is the assignment [o[k] = v].
    - [console.log] calls carry no data flow and are left out; the
      [strapi.log] calls of the middleware are kept as a trace.
    - The library functions [contentTypes.isVisibleAttribute],
      [pluralize.singular] and the two constants of
      [contentTypes.constants] are parameters of the development. *)

From Stdlib Require Import ZArith Ascii String.
From stdpp Require Import gmap strings list fin_maps.

Local Open Scope Z_scope.
Set Warnings "-register-all".
Set Default Proof Using "Type".

(** ** JavaScript values produced by the resolver *)

Inductive JsVal : Type :=
| JStr (s : string)
| JBool (b : bool)
| JObj (fields : list (string * JsVal)).

(** ['*'] *)
Definition star : JsVal := JStr "*".

(** [{ populate: v }] *)
Definition populateOf (v : JsVal) : JsVal := JObj [("populate", v)].

(** [{ on: { ... } }] *)
Definition onVariants (vs : list (string * JsVal)) : JsVal :=
  JObj [("on", JObj vs)].

(** [o[k] = v] on an object literal: an existing key keeps its position. *)
Fixpoint obj_set (k : string) (v : JsVal) (o : list (string * JsVal))
  : list (string * JsVal) :=
  match o with
  | [] => [(k, v)]
  | (k', v') :: o' =>
      if String.eqb k k' then (k, v) :: o' else (k', v') :: obj_set k v o'
  end.

(** [o[k]] *)
Fixpoint obj_get (k : string) (o : list (string * JsVal)) : option JsVal :=
  match o with
  | [] => None
  | (k', v') :: o' => if String.eqb k k' then Some v' else obj_get k o'
  end.

(** [Object.keys(o)] *)
Definition obj_keys (o : list (string * JsVal)) : list string := o.*1.

(** [typeof v === 'object' && Object.keys(v).length > 0] *)
Definition isNonEmptyObject (v : JsVal) : bool :=
  match v with
  | JObj (_ :: _) => true
  | _ => false
  end.

(** JavaScript truthiness of the values above. *)
Definition truthy (v : JsVal) : bool :=
  match v with
  | JStr s => negb (String.eqb s "")
  | JBool b => b
  | JObj _ => true
  end.

(** ** Schemas *)

(** One attribute of a schema, by its [type] tag. [Scalar] stands for every
    tag the [switch] sends to [default]. A relation's [target] is absent for
    polymorphic relations, a dynamic zone's [components] may be absent
    ([attribute.components || []]). *)
Inductive Attribute : Type :=
| Relation (relation : string) (target : option string)
| Media
| Component (component : string)
| DynamicZone (components : option (list string))
| Scalar (type : string).

(** A schema: [Object.entries(model.attributes)], whose keys are distinct
    because they are the property names of one object. *)
Record Model : Type := mkModel {
  attributes : list (string * Attribute);
  attributes_distinct : bool_decide (NoDup attributes.*1) = true
}.

(** ** Options *)

(** The [Options] interface; [V] is what a [Set<string>] is represented by. *)
Record Options (V : Type) : Type := mkOptions {
  relationalFields : option (list string);
  maxDepth : option Z;
  currentDepth : option Z;
  visitedUIDs : option V;
  depthLimits : option (gmap string Z)
}.
Arguments mkOptions {V}.
Arguments relationalFields {V}.
Arguments maxDepth {V}.
Arguments currentDepth {V}.
Arguments visitedUIDs {V}.
Arguments depthLimits {V}.

(** [{}] *)
Definition noOptions {V : Type} : Options V :=
  {| relationalFields := None; maxDepth := None; currentDepth := None;
     visitedUIDs := None; depthLimits := None |}.

(** [options.currentDepth] and [options.maxDepth] after the defaults of
    [getDeepPopulate] are merged in. *)
Definition depthOf {V : Type} (opts : Options V) : Z :=
  default 0 (currentDepth opts).
Definition maxDepthOf {V : Type} (opts : Options V) : Z :=
  default 3 (maxDepth opts).

(** [{ ...options, currentDepth: options.currentDepth + 1,
       visitedUIDs: newVisitedUIDs }] *)
Definition nestedOptions {V : Type} (opts : Options V) (newVisitedUIDs : V)
  : Options V :=
  {| relationalFields := relationalFields opts;
     maxDepth := Some (maxDepthOf opts);
     currentDepth := Some (depthOf opts + 1);
     visitedUIDs := Some newVisitedUIDs;
     depthLimits := depthLimits opts |}.

(** ** Configuration *)

Record DepthConfig : Type := mkDepthConfig {
  shallowPopulate : list string;
  mediumPopulate : list string;
  pathDepths : gmap string Z;
  excludeFields : gmap string (list string);
  includeOnlyFields : gmap string (list string)
}.

Definition DEPTH_CONFIG : DepthConfig :=
  {| shallowPopulate :=
       ["api::user.user"; "api::role.role"; "api::permission.permission"];
     mediumPopulate := [];
     pathDepths := ∅;
     excludeFields := ∅;
     includeOnlyFields := ∅ |}.

(** ** Property lookup on an object literal *)

(** The names of the members of [Object.prototype]: those of the language
    standard and the legacy accessors every JavaScript engine provides. An
    object literal inherits all of them. *)
Definition objectPrototype : list string :=
  ["constructor"; "hasOwnProperty"; "isPrototypeOf"; "propertyIsEnumerable";
   "toLocaleString"; "toString"; "valueOf"; "__proto__";
   "__defineGetter__"; "__defineSetter__"; "__lookupGetter__";
   "__lookupSetter__"].

(** What [table[key]] evaluates to when [table] is an object literal whose
    own properties are numbers: an own property, a member inherited from
    [Object.prototype] (a function, or the prototype object itself for
    [__proto__]), or [undefined]. *)
Inductive Property : Type :=
| OwnNumber (n : Z)
| Inherited
| Undefined.

(** [table[key]]: own properties first, then the prototype. *)
Definition lookupProperty (table : gmap string Z) (key : string)
  : Property :=
  match table !! key with
  | Some n => OwnNumber n
  | None =>
      if existsb (String.eqb key) objectPrototype then Inherited
      else Undefined
  end.

(** [currentDepth >= limit] for a number on the left. A function or an
    object on the right converts to a string that is no numeral, and
    [undefined] converts to [NaN] as well; every comparison with [NaN] is
    false. *)
Definition depthReaches (currentDepth : Z) (limit : Property) : bool :=
  match limit with
  | OwnNumber n => currentDepth >=? n
  | Inherited => false
  | Undefined => false
  end.

(** ** String helpers *)

(** [xs.includes(x)], where [x] may be [undefined]. *)
Definition includes (xs : list string) (x : option string) : bool :=
  match x with
  | Some s => existsb (String.eqb s) xs
  | None => false
  end.

Definition lowerAscii (c : ascii) : ascii :=
  let n := nat_of_ascii c in
  if (Nat.leb 65 n && Nat.leb n 90)%bool then ascii_of_nat (n + 32) else c.

(** [s.toLowerCase()] on the ASCII range. *)
Fixpoint toLowerCase (s : string) : string :=
  match s with
  | EmptyString => EmptyString
  | String c s' => String (lowerAscii c) (toLowerCase s')
  end.

(** [s.includes(sub)] *)
Definition strIncludes (sub s : string) : bool :=
  match String.index 0 sub s with
  | Some _ => true
  | None => false
  end.

(** [path.join('.')] *)
Definition getPathKey (path : list string) : string := String.concat "." path.

(** ** [extractPathSegment] *)

(** [url.split('?')[0]] *)
Fixpoint beforeQuery (s : string) : string :=
  match s with
  | EmptyString => EmptyString
  | String c s' =>
      if Ascii.eqb c "?" then EmptyString else String c (beforeQuery s')
  end.

(** The greedy match of [[^/?]+] at the head of [s], and what is left. *)
Fixpoint splitSegment (s : string) : string * string :=
  match s with
  | EmptyString => (EmptyString, EmptyString)
  | String c s' =>
      if (Ascii.eqb c "/" || Ascii.eqb c "?")%bool then (EmptyString, s)
      else let '(seg, rest) := splitSegment s' in (String c seg, rest)
  end.

(** [\d] *)
Definition isDigit (c : ascii) : bool :=
  let n := nat_of_ascii c in (Nat.leb 48 n && Nat.leb n 57)%bool.

Fixpoint allDigits (s : string) : bool :=
  match s with
  | EmptyString => true
  | String c s' => (isDigit c && allDigits s')%bool
  end.

(** [(?:\/|\/\d+)?$] *)
Definition matchesTail (rest : string) : bool :=
  match rest with
  | EmptyString => true
  | String c digits => (Ascii.eqb c "/" && allDigits digits)%bool
  end.

(** [path.match(/^\/api\/([^/?]+)(?:\/|\/\d+)?$/)], then [match[1]] or ['']. *)
Definition extractPathSegment (url : string) : string :=
  let path := beforeQuery url in
  if String.prefix "/api/" path then
    let '(seg, rest) :=
      splitSegment (String.substring 5 (String.length path - 5) path) in
    if (negb (String.eqb seg "") && matchesTail rest)%bool then seg else ""
  else "".

(** ** The middleware's view of a request *)

(** [ctx.request.url], [ctx.request.method] and [ctx.query.populate]. *)
Record Ctx : Type := mkCtx {
  url : string;
  method : string;
  populate : option JsVal
}.

(** The [strapi.log] calls of the middleware. *)
Inductive LogEntry : Type :=
| LogInfo (msg : string)
| LogWarn (msg : string)
| LogError (msg : string).

(** ** A store of [Set<string>] objects *)

(** References are positions in the store; [new Set(...)] appends. *)
Abbreviation Store := (list (gset string)).
Definition StoreM (A : Type) : Type := Store → option (A * Store).

#[global] Instance storeM_ret : MRet StoreM := λ A x σ, Some (x, σ).
#[global] Instance storeM_bind : MBind StoreM := λ A B f m σ,
  match m σ with
  | Some (x, σ') => f x σ'
  | None => None
  end.

(** [new Set(content)] *)
Definition newSet (content : gset string) : StoreM nat :=
  λ σ, Some (length σ, σ ++ [content]).

(** The elements of the set behind a reference. *)
Definition readSet (r : nat) : StoreM (gset string) :=
  λ σ, Some (default ∅ (σ !! r), σ).

(** [r.add(x)] *)
Definition setAdd (r : nat) (x : string) : StoreM unit :=
  λ σ, Some ((), alter (λ s, s ∪ {[x]}) r σ).

(** Running out of fuel inside the store monad. *)
Definition outOfFuel {A : Type} : StoreM A := λ _, None.

(** ** Notions about URLs and directives used to state further properties *)

(** No character of [s] is [/] or [?]: what [[^/?]] accepts. *)
Fixpoint noSeparator (s : string) : bool :=
  match s with
  | EmptyString => true
  | String c s' =>
      (negb (Ascii.eqb c "/" || Ascii.eqb c "?") && noSeparator s')%bool
  end.

(** No character of [s] is [?]. *)
Fixpoint noQuery (s : string) : bool :=
  match s with
  | EmptyString => true
  | String c s' => (negb (Ascii.eqb c "?") && noQuery s')%bool
  end.

(** [atMostLevels n d]: the directive [d] nests at most [n] objects of
    fields, counting through the [{ populate: ... }] and [{ on: ... }]
    wrappers. *)
Inductive atMostLevels : nat → JsVal → Prop :=
| levels_leaf n :
    atMostLevels n (JStr "*")
| levels_fields n fields :
    (∀ name v, (name, v) ∈ fields → fieldAtMostLevels n v) →
    atMostLevels (S n) (JObj fields)
with fieldAtMostLevels : nat → JsVal → Prop :=
| levels_populate n nested :
    atMostLevels n nested →
    fieldAtMostLevels n (JObj [("populate", nested)])
| levels_on n variants :
    (∀ componentUID v,
        (componentUID, v) ∈ variants →
        ∃ nested, v = JObj [("populate", nested)] ∧ atMostLevels n nested) →
    fieldAtMostLevels n (JObj [("on", JObj variants)]).

(** The path is a single segment that names a member of
    [Object.prototype]: the paths whose key [pathDepths] finds by
    inheritance. *)
Definition namesInheritedMember (path : list string) : bool :=
  match path with
  | [segment] => existsb (String.eqb segment) objectPrototype
  | _ => false
  end.

(** ** An example registry

    The three component schemas are those of the repository
    ([dynamic-zone.cta], [dynamic-zone.hero], [shared.button]); the content
    types around them form a cyclic graph: articles relate to articles,
    users to roles and back. *)

Definition buttonModel : Model :=
  mkModel [("target", Scalar "enumeration"); ("text", Scalar "string");
           ("url", Scalar "string"); ("variant", Scalar "enumeration")]
          eq_refl.

Definition ctaModel : Model :=
  mkModel [("ctas", Component "shared.button"); ("heading", Scalar "string");
           ("sub_heading", Scalar "string")]
          eq_refl.

Definition heroModel : Model :=
  mkModel [("ctas", Component "shared.button"); ("heading", Scalar "string");
           ("sub_heading", Scalar "string")]
          eq_refl.

Definition articleModel : Model :=
  mkModel [("title", Scalar "string");
           ("cover", Media);
           ("related", Relation "manyToMany" (Some "api::article.article"));
           ("author", Relation "manyToOne" (Some "api::user.user"));
           ("category", Relation "manyToOne" (Some "api::category.category"));
           ("createdBy", Relation "oneToOne" (Some "admin::user"));
           ("commentable", Relation "morphToMany" None);
           ("blocks",
            DynamicZone (Some ["dynamic-zone.hero"; "dynamic-zone.cta"]))]
          eq_refl.

Definition categoryModel : Model :=
  mkModel [("name", Scalar "string");
           ("articles", Relation "oneToMany" (Some "api::article.article"))]
          eq_refl.

Definition userModel : Model :=
  mkModel [("username", Scalar "string");
           ("role", Relation "manyToOne" (Some "api::role.role"))]
          eq_refl.

Definition roleModel : Model :=
  mkModel [("name", Scalar "string");
           ("users", Relation "oneToMany" (Some "api::user.user"));
           ("articles", Relation "oneToMany" (Some "api::article.article"))]
          eq_refl.

Definition exampleModels : gmap string Model :=
  <["api::article.article" := articleModel]>
    (<["api::category.category" := categoryModel]>
       (<["api::user.user" := userModel]>
          (<["api::role.role" := roleModel]>
             (<["dynamic-zone.hero" := heroModel]>
                (<["dynamic-zone.cta" := ctaModel]>
                   (<["shared.button" := buttonModel]> ∅)))))).

Definition exampleVisible (model : Model) (attributeName : string) : bool :=
  true.

(** Enough of [pluralize.singular] for the example requests. *)
Definition exampleSingular (word : string) : string :=
  if String.eqb word "articles" then "article"
  else if String.eqb word "categories" then "category"
  else if String.eqb word "roles" then "role"
  else word.

(** A configuration with one entry in each depth table, to exercise the
    precedence of the stop predicate. *)
Definition exampleConfig : DepthConfig :=
  {| shallowPopulate := ["api::user.user"];
     mediumPopulate := ["api::category.category"];
     pathDepths := {["author.role" := 5]};
     excludeFields := ∅;
     includeOnlyFields := ∅ |}.

(** Requests and options used in the examples below. *)

(** A single document addressed by its document identifier. *)
Definition documentRequest : Ctx :=
  {| url := "/api/articles/znrlzntu9ei5onjvwfaalu2v"; method := "GET";
     populate := None |}.

(** A collection request. *)
Definition collectionRequest : Ctx :=
  {| url := "/api/articles?sort=title"; method := "GET"; populate := None |}.

(** The options of the call made for [related] while expanding an article
    at the root. *)
Definition relatedOptions : Options (gset string) :=
  nestedOptions noOptions (∅ ∪ {["api::article.article"]}).

(** Options whose visited set is the first set of the store. *)
Definition storedOptions : Options nat :=
  {| relationalFields := None; maxDepth := None; currentDepth := Some 1;
     visitedUIDs := Some 0%nat; depthLimits := None |}.

(** A configuration with an exclusion and an include-only entry, and a
    registry with a relation that has no target, for the examples of the
    further properties. *)
Definition tunedConfig : DepthConfig :=
  {| shallowPopulate :=
       ["api::user.user"; "api::role.role"; "api::permission.permission"];
     mediumPopulate := [];
     pathDepths := ∅;
     excludeFields := {["api::article.article" := ["blocks"]]};
     includeOnlyFields := {["articles.commentable" := ["id"; "title"]]} |}.




(** The options of the call made for the [ctas] component of a hero block
    while an article is expanded at the root: two levels down. *)
Definition buttonOptions : Options (gset string) :=
  nestedOptions
    (nestedOptions noOptions (∅ ∪ {["api::article.article"]}))
    ((∅ ∪ {["api::article.article"]}) ∪ {["dynamic-zone.hero"]}).

(** A content type with two relations to the user type, one of them named
    like a member of [Object.prototype], and a registry with it. *)
Definition profileModel : Model :=
  mkModel [("name", Scalar "string");
           ("constructor", Relation "manyToOne" (Some "api::user.user"));
           ("owner", Relation "manyToOne" (Some "api::user.user"))]
          eq_refl.

Definition profileModels : gmap string Model :=
  <["api::profile.profile" := profileModel]> exampleModels.

(** A request that already carries a populate directive. *)
Definition populatedRequest : Ctx :=
  {| url := "/api/articles"; method := "GET"; populate := Some star |}.

(** A request for a content type whose name starts like an excluded one. *)
Definition seoPagesRequest : Ctx :=
  {| url := "/api/seo-pages"; method := "GET"; populate := None |}.

(** ** The resolver *)

Section Resolver.

(** The configuration table; the program runs with [DEPTH_CONFIG]. *)
Variable cfg : DepthConfig.
(** The schema registry queried by [strapi.getModel]. *)
Variable models : gmap string Model.
(** [contentTypes.isVisibleAttribute] *)
Variable isVisibleAttribute : Model → string → bool.
(** [contentTypes.constants] *)
Variables CREATED_BY_ATTRIBUTE UPDATED_BY_ATTRIBUTE : string.

(** [strapi.getModel] *)
Definition getModel (uid : string) : option Model := models !! uid.

(** The test [DEPTH_CONFIG.pathDepths[pathKey] !== undefined] also succeeds
    on a key that names a member of [Object.prototype]; the comparison that
    follows is then false at every depth. *)
Definition shouldStopAtCurrentDepth
    (uid : option string) (currentDepth : Z) (path : list string) : bool :=
  let pathKey := getPathKey path in
  match lookupProperty (pathDepths cfg) pathKey with
  | Undefined =>
      if includes (shallowPopulate cfg) uid then currentDepth >=? 1
      else if includes (mediumPopulate cfg) uid then currentDepth >=? 2
      else currentDepth >=? 3
  | limit => depthReaches currentDepth limit
  end.

(** [DEPTH_CONFIG.excludeFields[uid] &&
     DEPTH_CONFIG.excludeFields[uid].includes(attributeName)] *)
Definition isExcluded (uid attributeName : string) : bool :=
  match excludeFields cfg !! uid with
  | Some fs => includes fs (Some attributeName)
  | None => false
  end.

(** [path.length > 0 ? `${path[path.length - 1]}.${attributeName}` : null] *)
Definition contextKey (path : list string) (attributeName : string)
  : option string :=
  match last path with
  | Some parent => Some (parent +:+ "." +:+ attributeName)
  | None => None
  end.

(** [contextKey && DEPTH_CONFIG.includeOnlyFields[contextKey]] *)
Definition includeOnly (path : list string) (attributeName : string)
  : option (list string) :=
  match contextKey path attributeName with
  | Some key => includeOnlyFields cfg !! key
  | None => None
  end.

(** [{ populate: fieldsToInclude.reduce((fields, field) =>
       { fields[field] = true; return fields }, {}) }] *)
Definition simplifiedPopulate (fieldsToInclude : list string) : JsVal :=
  populateOf
    (JObj (fold_left (fun fields field => obj_set field (JBool true) fields)
                     fieldsToInclude [])).

Definition isMorphRelation (relation : string) : bool :=
  String.prefix "morph" (toLowerCase relation).

(** The wrapping shared by the relation, component and dynamic-zone cases:
    [typeof nested === 'object' && Object.keys(nested).length > 0
       ? { populate: nested } : { populate: '*' }]. *)
Definition wrapPopulate (nested : JsVal) : JsVal :=
  if isNonEmptyObject nested then populateOf nested else populateOf star.

(** *** The reducer callback, for any way of running the recursive call

    [M] is [option] when sets are values (the only effect is running out
    of fuel) and [StoreM] when sets live in a store. *)
Section Callback.
Context {M : Type → Type} `{!MRet M, !MBind M} {V : Type}.

(** [Array.prototype.reduce] with an effectful callback. *)
Fixpoint reduceM {A B : Type} (f : B → A → M B) (l : list A) (acc : B)
  : M B :=
  match l with
  | [] => mret acc
  | x :: l' => acc' ← f acc x; reduceM f l' acc'
  end.

(** The callback of [attributes.reduce]; [rec] is [getDeepPopulate]. *)
Definition populateAttribute
    (rec : string → Options V → list string → M JsVal)
    (uid : string) (model : Model) (opts : Options V)
    (newVisitedUIDs : V) (path : list string)
    (acc : list (string * JsVal)) (entry : string * Attribute)
  : M (list (string * JsVal)) :=
  let '(attributeName, attribute) := entry in
  let currentPath := path ++ [attributeName] in
  if isExcluded uid attributeName then mret acc
  else
    match includeOnly path attributeName with
    | Some fieldsToInclude =>
        mret (obj_set attributeName
                      (simplifiedPopulate fieldsToInclude) acc)
    | None =>
        match attribute with
        | Relation relation targetUID =>
            if isMorphRelation relation then mret acc
            else if (String.eqb attributeName CREATED_BY_ATTRIBUTE
                     || String.eqb attributeName UPDATED_BY_ATTRIBUTE)%bool
            then mret acc
            else if (isVisibleAttribute model attributeName
                     && match relationalFields opts with
                        | None => true
                        | Some fs => includes fs (Some attributeName)
                        end)%bool
            then
              if shouldStopAtCurrentDepth targetUID (depthOf opts + 1)
                                          currentPath
              then mret (obj_set attributeName (populateOf star) acc)
              else
                match targetUID with
                | Some t =>
                    if String.eqb t "" then
                      mret (obj_set attributeName (populateOf star) acc)
                    else
                      nestedPopulate ←
                        rec t (nestedOptions opts newVisitedUIDs)
                            currentPath;
                      mret (obj_set attributeName
                                    (wrapPopulate nestedPopulate) acc)
                | None =>
                    mret (obj_set attributeName (populateOf star) acc)
                end
            else mret acc
        | Media => mret (obj_set attributeName (populateOf star) acc)
        | Component component =>
            componentPopulate ←
              rec component (nestedOptions opts newVisitedUIDs)
                  currentPath;
            mret (obj_set attributeName
                          (wrapPopulate componentPopulate) acc)
        | DynamicZone components =>
            populatedComponents ←
              reduceM
                (fun acc' componentUID =>
                   componentPopulate ←
                     rec componentUID (nestedOptions opts newVisitedUIDs)
                         (currentPath ++ [componentUID]);
                   mret (obj_set componentUID
                                 (wrapPopulate componentPopulate) acc'))
                (default [] components) [];
            mret (obj_set attributeName
                          (onVariants populatedComponents) acc)
        | Scalar _ => mret acc
        end
    end.
End Callback.

(** *** [getDeepPopulate] with sets as values *)

Definition visitedOf (opts : Options (gset string)) : gset string :=
  default ∅ (visitedUIDs opts).

(** The body of [getDeepPopulate], with the recursive call [rec]
    abstracted. *)
Definition getDeepPopulate_body
    (rec : string → Options (gset string) → list string → option JsVal)
    (uid : string) (opts : Options (gset string)) (path : list string)
  : option JsVal :=
  if shouldStopAtCurrentDepth (Some uid) (depthOf opts) path then Some star
  else if (bool_decide (uid ∈ visitedOf opts) && (0 <? depthOf opts))%bool
  then Some star
  else
    match getModel uid with
    | None => Some star
    | Some model =>
        let newVisitedUIDs := visitedOf opts ∪ {[uid]} in
        fields ←
          reduceM (populateAttribute rec uid model opts newVisitedUIDs path)
                  (attributes model) [];
        Some (JObj fields)
    end.

(** [getDeepPopulate], recursion bounded by [fuel]; [None] is fuel
    exhaustion only. *)
Fixpoint getDeepPopulate_fuel (fuel : nat)
  : string → Options (gset string) → list string → option JsVal :=
  match fuel with
  | O => fun _ _ _ => None
  | S fuel' => getDeepPopulate_body (getDeepPopulate_fuel fuel')
  end.

(** Fuel that always suffices: the depth has to become positive, after
    which every expanded type is a registered one not yet visited. *)
Definition fuelFor (opts : Options (gset string)) : nat :=
  (Z.to_nat (1 - depthOf opts) + size (dom models ∖ visitedOf opts) + 1)%nat.

(** [getDeepPopulate] as a total function. *)
Definition getDeepPopulate
    (uid : string) (opts : Options (gset string)) (path : list string)
  : JsVal :=
  default star (getDeepPopulate_fuel (fuelFor opts) uid opts path).

(** *** One unfolding of the total function *)

(** What the callback does to the accumulator: write one key, or nothing. *)
Definition applyEntry (name : string) (e : option JsVal)
    (acc : list (string * JsVal)) : list (string * JsVal) :=
  match e with
  | Some v => obj_set name v acc
  | None => acc
  end.

(** The object under [on] for a dynamic zone. *)
Definition variantsOf (opts : Options (gset string))
    (newVisitedUIDs : gset string)
    (currentPath : list string) (components : option (list string))
  : list (string * JsVal) :=
  fold_left
    (fun acc' componentUID =>
       obj_set componentUID
         (wrapPopulate
            (getDeepPopulate componentUID
               (nestedOptions opts newVisitedUIDs)
               (currentPath ++ [componentUID])))
         acc')
    (default [] components) [].

(** The value written under [attributeName], if any. *)
Definition attributeEntry (uid : string) (model : Model)
    (opts : Options (gset string))
    (path : list string) (entry : string * Attribute) : option JsVal :=
  let '(attributeName, attribute) := entry in
  let currentPath := path ++ [attributeName] in
  let newVisitedUIDs := visitedOf opts ∪ {[uid]} in
  if isExcluded uid attributeName then None
  else
    match includeOnly path attributeName with
    | Some fieldsToInclude => Some (simplifiedPopulate fieldsToInclude)
    | None =>
        match attribute with
        | Relation relation targetUID =>
            if isMorphRelation relation then None
            else if (String.eqb attributeName CREATED_BY_ATTRIBUTE
                     || String.eqb attributeName UPDATED_BY_ATTRIBUTE)%bool
            then None
            else if (isVisibleAttribute model attributeName
                     && match relationalFields opts with
                        | None => true
                        | Some fs => includes fs (Some attributeName)
                        end)%bool
            then
              if shouldStopAtCurrentDepth targetUID (depthOf opts + 1)
                                          currentPath
              then Some (populateOf star)
              else
                match targetUID with
                | Some t =>
                    if String.eqb t "" then Some (populateOf star)
                    else
                      Some (wrapPopulate
                              (getDeepPopulate t
                                 (nestedOptions opts newVisitedUIDs)
                                 currentPath))
                | None => Some (populateOf star)
                end
            else None
        | Media => Some (populateOf star)
        | Component component =>
            Some (wrapPopulate
                    (getDeepPopulate component
                       (nestedOptions opts newVisitedUIDs) currentPath))
        | DynamicZone components =>
            Some (onVariants
                    (variantsOf opts newVisitedUIDs currentPath components))
        | Scalar _ => None
        end
    end.

(** The object returned once the three guards are passed. *)
Definition populateAttributes (uid : string) (model : Model)
    (opts : Options (gset string)) (path : list string)
  : list (string * JsVal) :=
  fold_left
    (fun acc entry =>
       applyEntry entry.1 (attributeEntry uid model opts path entry) acc)
    (attributes model) [].

(** *** [getDeepPopulate] with sets in a store

    The same function with [options.visitedUIDs] a reference: the default
    [new Set<string>()] of the options literal, the copy
    [new Set(options.visitedUIDs)] and the mutation
    [newVisitedUIDs.add(uid)] are store operations. *)

Definition getDeepPopulate_store_body
    (rec : string → Options nat → list string → StoreM JsVal)
    (uid : string) (opts : Options nat) (path : list string)
  : StoreM JsVal :=
  fresh ← newSet ∅;
  let visited := default fresh (visitedUIDs opts) in
  if shouldStopAtCurrentDepth (Some uid) (depthOf opts) path then mret star
  else
    elems ← readSet visited;
    if (bool_decide (uid ∈ elems) && (0 <? depthOf opts))%bool
    then mret star
    else
      match getModel uid with
      | None => mret star
      | Some model =>
          newVisitedUIDs ← newSet elems;
          _ ← setAdd newVisitedUIDs uid;
          fields ←
            reduceM (populateAttribute rec uid model opts
                                       newVisitedUIDs path)
                    (attributes model) [];
          mret (JObj fields)
      end.

Fixpoint getDeepPopulate_store (fuel : nat)
  : string → Options nat → list string → StoreM JsVal :=
  match fuel with
  | O => fun _ _ _ => outOfFuel
  | S fuel' => getDeepPopulate_store_body (getDeepPopulate_store fuel')
  end.

(** The options a store-based call stands for: references replaced by
    the sets they point to. *)
Definition optionsIn (σ : Store) (opts : Options nat)
  : Options (gset string) :=
  {| relationalFields := relationalFields opts;
     maxDepth := maxDepth opts;
     currentDepth := currentDepth opts;
     visitedUIDs := (λ r, default ∅ (σ !! r)) <$> visitedUIDs opts;
     depthLimits := depthLimits opts |}.

(** *** The exported middleware

    The result is the trace of [strapi.log] calls and the context handed
    to [next()], which every path of the handler reaches exactly once.
    [getDeepPopulate] is total, so the [catch] clause has no case here.
    [pluralize] stands for the imported library; its [singular] is
    [pluralize.singular]. *)
Definition deepPopulate (pluralize : string → string) (ctx : Ctx)
  : list LogEntry * Ctx :=
  if (String.prefix "/api/" (url ctx)
      && String.eqb (method ctx) "GET"
      && negb (from_option truthy false (populate ctx))
      && negb (strIncludes "/api/users" (url ctx))
      && negb (strIncludes "/api/seo" (url ctx)))%bool
  then
    let contentType := extractPathSegment (url ctx) in
    if String.eqb contentType "" then
      ([LogInfo "Using controlled deepPopulate middleware...";
        LogWarn "deepPopulate: Could not extract content type from URL."],
       ctx)
    else
      let singular := pluralize contentType in
      if String.eqb singular "" then
        ([LogInfo "Using controlled deepPopulate middleware...";
          LogWarn ("deepPopulate: Could not singularize content type "
                   +:+ contentType)],
         ctx)
      else
        let uid := "api::" +:+ singular +:+ "." +:+ singular in
        let populateConfig := getDeepPopulate uid noOptions [] in
        ([LogInfo "Using controlled deepPopulate middleware...";
          LogInfo "Final populate config:"],
         {| url := url ctx; method := method ctx;
            populate := Some populateConfig |})
  else ([], ctx).

(** *** Notions used to state the properties *)

(** Drops the parameters a statement does not mention, so that automation
    cannot pick them up. *)
Ltac forget_parameters :=
  try clear UPDATED_BY_ATTRIBUTE; try clear CREATED_BY_ATTRIBUTE;
  try clear isVisibleAttribute; try clear models; try clear cfg.

(** The precedence table of the stop predicate as the specification has
    it, first match first. The override of a path is the entry of the
    path-depth table under the segments of the path joined with ['.']. *)
Inductive StopRule (uid : string) (currentDepth : Z) (path : list string)
  : Prop :=
| stop_path_override (override : Z) :
    pathDepths cfg !! String.concat "." path = Some override →
    override ≤ currentDepth →
    StopRule uid currentDepth path
| stop_shallow :
    pathDepths cfg !! String.concat "." path = None →
    uid ∈ shallowPopulate cfg →
    1 ≤ currentDepth →
    StopRule uid currentDepth path
| stop_medium :
    pathDepths cfg !! String.concat "." path = None →
    uid ∉ shallowPopulate cfg →
    uid ∈ mediumPopulate cfg →
    2 ≤ currentDepth →
    StopRule uid currentDepth path
| stop_default :
    pathDepths cfg !! String.concat "." path = None →
    uid ∉ shallowPopulate cfg →
    uid ∉ mediumPopulate cfg →
    3 ≤ currentDepth →
    StopRule uid currentDepth path.

(** A chain of nested calls, given by the types it goes through: every
    call of the chain passes the revisit check and resolves its type, and
    the next one is made with the options the body builds for it. *)
Fixpoint chainExpands (opts : Options (gset string)) (uids : list string)
  : Prop :=
  match uids with
  | [] => True
  | uid :: uids' =>
      (bool_decide (uid ∈ visitedOf opts) && (0 <? depthOf opts))%bool = false
      ∧ is_Some (getModel uid)
      ∧ chainExpands (nestedOptions opts (visitedOf opts ∪ {[uid]})) uids'
  end.

(** [{ ...opts, maxDepth: m }] ([None] leaves the option out). *)
Definition withMaxDepth {V : Type} (m : option Z) (opts : Options V)
  : Options V :=
  {| relationalFields := relationalFields opts;
     maxDepth := m;
     currentDepth := currentDepth opts;
     visitedUIDs := visitedUIDs opts;
     depthLimits := depthLimits opts |}.

(** The attributes the relation case never populates: polymorphic
    relations and the two provenance relations. *)
Definition neverPopulated (attributeName : string) (attribute : Attribute)
  : bool :=
  match attribute with
  | Relation relation _ =>
      (isMorphRelation relation
       || String.eqb attributeName CREATED_BY_ATTRIBUTE
       || String.eqb attributeName UPDATED_BY_ATTRIBUTE)%bool
  | _ => false
  end.

(** [omitsNeverPopulated uid d]: [d] is a directive for the type [uid] in
    which, at every level, the object built for a type has no key for a
    never-populated attribute of that type. [omitsInField] follows a field
    into the directive nested under it. *)
Inductive omitsNeverPopulated : string → JsVal → Prop :=
| omits_leaf uid :
    omitsNeverPopulated uid star
| omits_fields uid model fields :
    getModel uid = Some model →
    (∀ name attribute,
        (name, attribute) ∈ attributes model →
        neverPopulated name attribute = true →
        name ∉ obj_keys fields) →
    (∀ name v,
        obj_get name fields = Some v →
        ∃ attribute,
          (name, attribute) ∈ attributes model ∧ omitsInField attribute v) →
    omitsNeverPopulated uid (JObj fields)
with omitsInField : Attribute → JsVal → Prop :=
| omits_flat attribute :
    omitsInField attribute (populateOf star)
| omits_relation relation target nested :
    omitsNeverPopulated target nested →
    omitsInField (Relation relation (Some target)) (populateOf nested)
| omits_component component nested :
    omitsNeverPopulated component nested →
    omitsInField (Component component) (populateOf nested)
| omits_variants components variants :
    (∀ componentUID v,
        obj_get componentUID variants = Some v →
        ∃ nested,
          v = populateOf nested ∧ omitsNeverPopulated componentUID nested) →
    omitsInField (DynamicZone components) (onVariants variants).

(** The reading of the shallow set under which a root type of that set
    has only flat relation fields. *)
Definition shallowRootIsFlat (uid : string) : Prop :=
  ∀ model fields name relation target v,
    getModel uid = Some model →
    getDeepPopulate uid noOptions [] = JObj fields →
    (name, Relation relation target) ∈ attributes model →
    obj_get name fields = Some v →
    v = populateOf star.

(** The four conditions of the interception wrapper: the path is under
    the content API, the method is a read, the caller supplied no populate
    directive, the target is in neither excluded namespace. *)
Definition interceptConditions (ctx : Ctx) : Prop :=
  String.prefix "/api/" (url ctx) = true
  ∧ method ctx = "GET"
  ∧ from_option truthy false (populate ctx) = false
  ∧ strIncludes "/api/users" (url ctx) = false
  ∧ strIncludes "/api/seo" (url ctx) = false.

(** The middleware changed [ctx.query.populate]. *)
Definition injectsDirective (pluralize : string → string) (ctx : Ctx)
  : Prop :=
  populate (deepPopulate pluralize ctx).2 ≠ populate ctx.

(** [{ ...opts, depthLimits: limits }] ([None] leaves the option out). *)
Definition withDepthLimits {V : Type} (limits : option (gmap string Z))
    (opts : Options V) : Options V :=
  {| relationalFields := relationalFields opts;
     maxDepth := maxDepth opts;
     currentDepth := currentDepth opts;
     visitedUIDs := visitedUIDs opts;
     depthLimits := limits |}.

(** The relation case reaches its populate branch for this attribute. *)
Definition relationPopulated (model : Model) (opts : Options (gset string))
    (attributeName relation : string) : bool :=
  (negb (isMorphRelation relation)
   && negb (String.eqb attributeName CREATED_BY_ATTRIBUTE
            || String.eqb attributeName UPDATED_BY_ATTRIBUTE)
   && isVisibleAttribute model attributeName
   && match relationalFields opts with
      | None => true
      | Some fs => includes fs (Some attributeName)
      end)%bool.

(** The callback calls [getDeepPopulate] for this attribute: a relation
    that is populated, not cut by the look-ahead and has a target, a
    component, or a dynamic zone with at least one component. *)
Definition recurses (uid : string) (model : Model)
    (opts : Options (gset string)) (path : list string)
    (entry : string * Attribute) : bool :=
  let '(attributeName, attribute) := entry in
  if isExcluded uid attributeName then false
  else
    match includeOnly path attributeName with
    | Some _ => false
    | None =>
        match attribute with
        | Relation relation targetUID =>
            (relationPopulated model opts attributeName relation
             && negb (shouldStopAtCurrentDepth targetUID (depthOf opts + 1)
                                               (path ++ [attributeName]))
             && match targetUID with
                | Some t => negb (String.eqb t "")
                | None => false
                end)%bool
        | Media => false
        | Component _ => true
        | DynamicZone components =>
            match default [] components with
            | [] => false
            | _ :: _ => true
            end
        | Scalar _ => false
        end
    end.

(** The call returns without making a recursive call: its body has a
    result even when every recursive call fails. *)
Definition returnsWithoutRecursing (uid : string)
    (opts : Options (gset string)) (path : list string) : Prop :=
  is_Some (getDeepPopulate_body (fun _ _ _ => None) uid opts path).

(** One of the three guards of [getDeepPopulate] fires: the depth cap, the
    revisit check, the missing schema. *)
Definition guardFires (uid : string) (opts : Options (gset string))
    (path : list string) : Prop :=
  shouldStopAtCurrentDepth (Some uid) (depthOf opts) path = true
  ∨ (uid ∈ visitedOf opts ∧ 0 < depthOf opts)
  ∨ getModel uid = None.

(** The reading of the claim under which a branch of the recursion can
    only end at a guard. *)
Definition branchesEndAtGuards : Prop :=
  ∀ uid opts path,
    returnsWithoutRecursing uid opts path → guardFires uid opts path.

(** ** Object literals *)

Lemma obj_get_set_eq k v o : obj_get k (obj_set k v o) = Some v.
Proof.
  induction o as [|[k' v'] o IH]; simpl.
  - by rewrite String.eqb_refl.
  - destruct (String.eqb k k') eqn:Hk; simpl; rewrite ?Hk, ?String.eqb_refl;
      done.
Qed.

Lemma obj_get_set_ne k k' v o :
  k ≠ k' → obj_get k' (obj_set k v o) = obj_get k' o.
Proof.
  intros Hne. induction o as [|[k0 v0] o IH]; simpl.
  - apply String.eqb_neq in Hne. rewrite String.eqb_sym in Hne.
    by rewrite Hne.
  - destruct (String.eqb k k0) eqn:Hk; simpl.
    + apply String.eqb_eq in Hk as <-.
      assert (String.eqb k' k = false) as ->; [|done].
      apply String.eqb_neq. congruence.
    + by rewrite IH.
Qed.

Lemma obj_get_None k o : obj_get k o = None ↔ k ∉ obj_keys o.
Proof.
  unfold obj_keys. induction o as [|[k' v'] o IH]; simpl.
  - split; [intros _; apply not_elem_of_nil|done].
  - rewrite not_elem_of_cons. destruct (String.eqb k k') eqn:Hk.
    + apply String.eqb_eq in Hk. split; [done|]. intros [? _]. done.
    + apply String.eqb_neq in Hk. rewrite IH. tauto.
Qed.

Lemma obj_keys_set k v o k' :
  k' ∈ obj_keys (obj_set k v o) ↔ k' = k ∨ k' ∈ obj_keys o.
Proof.
  unfold obj_keys. induction o as [|[k0 v0] o IH]; simpl.
  - rewrite list_elem_of_singleton. split; [by left|].
    intros [?|H%elem_of_nil]; done.
  - destruct (String.eqb k k0) eqn:Hk; simpl.
    + apply String.eqb_eq in Hk as <-. rewrite !elem_of_cons. tauto.
    + rewrite !elem_of_cons, IH. tauto.
Qed.

Lemma obj_keys_set_NoDup k v o :
  NoDup (obj_keys o) → NoDup (obj_keys (obj_set k v o)).
Proof.
  unfold obj_keys. induction o as [|[k0 v0] o IH]; simpl; intros Hnd.
  - apply NoDup_singleton.
  - apply NoDup_cons in Hnd as [Hk0 Hnd].
    destruct (String.eqb k k0) eqn:Hk; simpl.
    + apply String.eqb_eq in Hk as <-. by apply NoDup_cons.
    + apply NoDup_cons. split; [|by apply IH].
      change (k0 ∉ obj_keys (obj_set k v o)). rewrite obj_keys_set.
      apply String.eqb_neq in Hk. intros [?|?]; [congruence|done].
Qed.

(** A [reduce] whose callback writes at most the key of its element. *)
Lemma fold_applyEntry_other {X : Type} (f : string * X → option JsVal)
    (l : list (string * X)) (acc : list (string * JsVal)) (k : string) :
  k ∉ l.*1 →
  obj_get k (fold_left (fun acc e => applyEntry e.1 (f e) acc) l acc)
  = obj_get k acc.
Proof.
  revert acc. induction l as [|[k' x] l IH]; intros acc Hk; simpl; [done|].
  simpl in Hk. apply not_elem_of_cons in Hk as [Hne Hk].
  rewrite IH by done. unfold applyEntry.
  destruct (f (k', x)); [|done]. by apply obj_get_set_ne.
Qed.

Lemma fold_applyEntry_at {X : Type} (f : string * X → option JsVal)
    (l : list (string * X)) (acc : list (string * JsVal))
    (k : string) (x : X) :
  NoDup l.*1 → (k, x) ∈ l →
  obj_get k (fold_left (fun acc e => applyEntry e.1 (f e) acc) l acc)
  = match f (k, x) with
    | Some v => Some v
    | None => obj_get k acc
    end.
Proof.
  revert acc. induction l as [|[k' x'] l IH]; intros acc Hnd Hin; simpl.
  { by apply elem_of_nil in Hin. }
  simpl in Hnd. apply NoDup_cons in Hnd as [Hk' Hnd].
  apply elem_of_cons in Hin as [Heq|Hin].
  - injection Heq as <- <-. rewrite fold_applyEntry_other by done.
    unfold applyEntry. destruct (f (k, x)); [|done].
    apply obj_get_set_eq.
  - rewrite IH by done. destruct (f (k, x)); [done|].
    assert (k' ≠ k) as Hne.
    { intros ->. apply Hk'. apply list_elem_of_fmap. by exists (k, x). }
    unfold applyEntry. destruct (f (k', x')); [|done].
    by apply obj_get_set_ne.
Qed.

Lemma fold_applyEntry_keys {X : Type} (f : string * X → option JsVal)
    (l : list (string * X)) (acc : list (string * JsVal)) (k : string) :
  k ∈ obj_keys (fold_left (fun acc e => applyEntry e.1 (f e) acc) l acc) →
  k ∈ obj_keys acc ∨ ∃ x, (k, x) ∈ l ∧ is_Some (f (k, x)).
Proof.
  revert acc. induction l as [|[k' x'] l IH]; intros acc; simpl; [by left|].
  intros [Hacc|(x & Hin & Hx)]%IH.
  - unfold applyEntry in Hacc. destruct (f (k', x')) eqn:Hf; [|by left].
    apply obj_keys_set in Hacc as [->|Hacc]; [|by left].
    right. exists x'. split; [by left|by rewrite Hf].
  - right. exists x. split; [by right|done].
Qed.

(** The [reduce] over the variants of a dynamic zone. *)
Lemma fold_variants_get (g : string → JsVal) (cs : list string)
    (acc : list (string * JsVal)) (c : string) :
  obj_get c (fold_left (fun acc' c' => obj_set c' (g c') acc') cs acc)
  = if bool_decide (c ∈ cs) then Some (g c) else obj_get c acc.
Proof.
  revert acc. induction cs as [|c' cs IH]; intros acc; simpl; [done|].
  rewrite IH. destruct (decide (c ∈ cs)) as [Hin|Hnin].
  - rewrite !bool_decide_eq_true_2; [done| |done]. by right.
  - rewrite (bool_decide_eq_false_2 (c ∈ cs)) by done.
    destruct (decide (c = c')) as [->|Hne].
    + rewrite bool_decide_eq_true_2 by (by left). apply obj_get_set_eq.
    + rewrite bool_decide_eq_false_2
        by (intros [?|?]%elem_of_cons; done).
      by apply obj_get_set_ne.
Qed.

Lemma fold_variants_keys (g : string → JsVal) (cs : list string)
    (acc : list (string * JsVal)) (c : string) :
  c ∈ obj_keys (fold_left (fun acc' c' => obj_set c' (g c') acc') cs acc)
  ↔ c ∈ cs ∨ c ∈ obj_keys acc.
Proof.
  revert acc. induction cs as [|c' cs IH]; intros acc; simpl.
  - split; [by right|]. intros [H%elem_of_nil|H]; done.
  - rewrite IH, obj_keys_set, elem_of_cons. tauto.
Qed.

Lemma fold_variants_NoDup (g : string → JsVal) (cs : list string)
    (acc : list (string * JsVal)) :
  NoDup (obj_keys acc) →
  NoDup (obj_keys
           (fold_left (fun acc' c' => obj_set c' (g c') acc') cs acc)).
Proof.
  revert acc. induction cs as [|c' cs IH]; intros acc Hnd; simpl; [done|].
  by apply IH, obj_keys_set_NoDup.
Qed.

Lemma attributes_NoDup (model : Model) : NoDup (attributes model).*1.
Proof.
  apply (bool_decide_unpack _). apply Is_true_true, attributes_distinct.
Qed.

(** ** Fuel: monotonicity and sufficiency *)

(** Facts about [reduceM] in the [option] monad. *)
Lemma reduceM_is_Some {A B : Type} (f : B → A → option B) (l : list A) :
  (∀ acc x, x ∈ l → is_Some (f acc x)) →
  ∀ acc, is_Some (reduceM f l acc).
Proof.
  induction l as [|x l IH]; intros Hf acc; simpl; [by eexists|].
  destruct (Hf acc x) as [acc' Hacc']; [by left|].
  rewrite Hacc'. simpl. apply IH. intros acc0 y Hy. apply Hf. by right.
Qed.

Lemma reduceM_mono {A B : Type} (f g : B → A → option B) (l : list A) :
  (∀ acc x r, f acc x = Some r → g acc x = Some r) →
  ∀ acc r, reduceM f l acc = Some r → reduceM g l acc = Some r.
Proof.
  intros Hfg. induction l as [|x l IH]; intros acc r; simpl; [done|].
  destruct (f acc x) as [acc'|] eqn:Hf; simpl; [|done].
  rewrite (Hfg _ _ _ Hf). simpl. apply IH.
Qed.

Lemma reduceM_ext {A B : Type} (f g : B → A → option B) (l : list A) :
  (∀ acc x, x ∈ l → f acc x = g acc x) →
  ∀ acc, reduceM f l acc = reduceM g l acc.
Proof.
  induction l as [|x l IH]; intros Hfg acc; simpl; [done|].
  rewrite Hfg by (by left). destruct (g acc x); simpl; [|done].
  apply IH. intros acc0 y Hy. apply Hfg. by right.
Qed.

Section CallbackFacts.
Variables (uid : string) (model : Model) (opts : Options (gset string)).
Variables (newVisitedUIDs : gset string) (path : list string).

Lemma populateAttribute_is_Some rec acc entry :
  (∀ u p, is_Some (rec u (nestedOptions opts newVisitedUIDs) p)) →
  is_Some (populateAttribute rec uid model opts newVisitedUIDs path
                             acc entry).
Proof.
  intros Hrec. destruct entry as [name attr]. unfold populateAttribute, mret, option_ret.
  destruct (isExcluded uid name); [by eexists|].
  destruct (includeOnly path name); [by eexists|].
  destruct attr as [relation [t|]| |c|cs|ty];
    repeat (match goal with
            | |- is_Some (Some _) => by eexists
            | |- is_Some (if ?b then _ else _) => destruct b
            end).
  - destruct (Hrec t (path ++ [name])) as [r ->]. by eexists.
  - destruct (Hrec c (path ++ [name])) as [r ->]. by eexists.
  - match goal with
    | |- is_Some (?m ≫= _) => assert (is_Some m) as [vs ->]
    end; [|by eexists].
    apply reduceM_is_Some. intros acc' c _.
    destruct (Hrec c ((path ++ [name]) ++ [c])) as [r ->]. by eexists.
Qed.

Lemma populateAttribute_mono rec1 rec2 acc entry r :
  (∀ u p v, rec1 u (nestedOptions opts newVisitedUIDs) p = Some v →
            rec2 u (nestedOptions opts newVisitedUIDs) p = Some v) →
  populateAttribute rec1 uid model opts newVisitedUIDs path acc entry
    = Some r →
  populateAttribute rec2 uid model opts newVisitedUIDs path acc entry
    = Some r.
Proof.
  intros Hrec. destruct entry as [name attr]. unfold populateAttribute, mret, option_ret.
  destruct (isExcluded uid name); [done|].
  destruct (includeOnly path name); [done|].
  destruct attr as [relation [t|]| |c|cs|ty];
    repeat (match goal with
            | |- Some _ = _ → _ => done
            | |- (if ?b then _ else _) = _ → _ => destruct b
            end).
  - destruct (rec1 t _ _) as [v|] eqn:H1; simpl; [|done].
    by rewrite (Hrec _ _ _ H1).
  - destruct (rec1 c _ _) as [v|] eqn:H1; simpl; [|done].
    by rewrite (Hrec _ _ _ H1).
  - match goal with
    | |- ?m ≫= _ = _ → _ => destruct m as [vs|] eqn:H1; simpl; [|done]
    end.
    erewrite reduceM_mono; [done| |exact H1].
    intros acc' c' r'. simpl.
    destruct (rec1 c' _ _) as [v|] eqn:H2; simpl; [|done].
    by rewrite (Hrec _ _ _ H2).
Qed.
End CallbackFacts.

Lemma getDeepPopulate_body_mono rec1 rec2 uid opts path r :
  (∀ u p v,
      rec1 u (nestedOptions opts (visitedOf opts ∪ {[uid]})) p = Some v →
      rec2 u (nestedOptions opts (visitedOf opts ∪ {[uid]})) p = Some v) →
  getDeepPopulate_body rec1 uid opts path = Some r →
  getDeepPopulate_body rec2 uid opts path = Some r.
Proof.
  intros Hrec. unfold getDeepPopulate_body.
  destruct (shouldStopAtCurrentDepth _ _ _); [done|].
  destruct (_ && _)%bool; [done|].
  destruct (getModel uid) as [model|]; [|done].
  destruct (reduceM (populateAttribute rec1 _ _ _ _ _) _ _)
    as [fields|] eqn:Hfold; simpl; [|done].
  intros H. erewrite reduceM_mono; [exact H| |exact Hfold].
  intros acc x r'. by apply populateAttribute_mono.
Qed.

Lemma getDeepPopulate_fuel_S fuel uid opts path r :
  getDeepPopulate_fuel fuel uid opts path = Some r →
  getDeepPopulate_fuel (S fuel) uid opts path = Some r.
Proof.
  revert uid opts path r.
  induction fuel as [|fuel IH]; intros uid opts path r; [done|].
  change (getDeepPopulate_body (getDeepPopulate_fuel fuel) uid opts path
            = Some r →
          getDeepPopulate_body (getDeepPopulate_fuel (S fuel)) uid opts path
            = Some r).
  apply getDeepPopulate_body_mono. intros u p v. apply IH.
Qed.

Lemma getDeepPopulate_fuel_le n m uid opts path r :
  (n ≤ m)%nat →
  getDeepPopulate_fuel n uid opts path = Some r →
  getDeepPopulate_fuel m uid opts path = Some r.
Proof.
  induction 1 as [|m Hle IH]; [done|].
  intros H. by apply getDeepPopulate_fuel_S, IH.
Qed.

(** The measure behind [fuelFor] goes down at every recursive call. *)
Lemma fuelFor_nested uid opts model :
  (bool_decide (uid ∈ visitedOf opts) && (0 <? depthOf opts))%bool = false →
  getModel uid = Some model →
  (fuelFor (nestedOptions opts (visitedOf opts ∪ {[uid]})) < fuelFor opts)%nat.
Proof.
  forget_parameters. intros Hrevisit Hmodel. unfold fuelFor.
  change (depthOf (nestedOptions opts (visitedOf opts ∪ {[uid]})))
    with (depthOf opts + 1).
  change (visitedOf (nestedOptions opts (visitedOf opts ∪ {[uid]})))
    with (visitedOf opts ∪ {[uid]}).
  assert (uid ∈ dom models) as Hdom by (apply elem_of_dom; by eexists).
  assert (dom models ∖ (visitedOf opts ∪ {[uid]})
          ⊆ dom models ∖ visitedOf opts) as Hsub.
  { intros x. rewrite !elem_of_difference, elem_of_union. tauto. }
  pose proof (subseteq_size _ _ Hsub) as Hsize.
  apply andb_false_iff in Hrevisit as [Hin|Hdepth].
  - apply bool_decide_eq_false in Hin.
    assert (dom models ∖ (visitedOf opts ∪ {[uid]})
            ⊂ dom models ∖ visitedOf opts) as Hstrict.
    { apply strict_spec. split; [done|]. intros Hback.
      specialize (Hback uid). revert Hback.
      rewrite !elem_of_difference, elem_of_union, elem_of_singleton.
      tauto. }
    pose proof (subset_size _ _ Hstrict). lia.
  - apply Z.ltb_ge in Hdepth. lia.
Qed.

Lemma getDeepPopulate_fuel_enough fuel uid opts path :
  (fuelFor opts ≤ fuel)%nat →
  is_Some (getDeepPopulate_fuel fuel uid opts path).
Proof.
  revert uid opts path.
  induction fuel as [|fuel IH]; intros uid opts path Hfuel.
  { unfold fuelFor in Hfuel. lia. }
  simpl. unfold getDeepPopulate_body.
  destruct (shouldStopAtCurrentDepth _ _ _); [by eexists|].
  destruct (_ && _)%bool eqn:Hrevisit; [by eexists|].
  destruct (getModel uid) as [model|] eqn:Hmodel; [|by eexists].
  apply fmap_is_Some, reduceM_is_Some. intros acc x _.
  apply populateAttribute_is_Some. intros u p. apply IH.
  pose proof (fuelFor_nested uid opts model Hrevisit Hmodel). lia.
Qed.

Lemma getDeepPopulate_fuel_total fuel uid opts path :
  (fuelFor opts ≤ fuel)%nat →
  getDeepPopulate_fuel fuel uid opts path
    = Some (getDeepPopulate uid opts path).
Proof.
  intros Hfuel. unfold getDeepPopulate.
  destruct (getDeepPopulate_fuel_enough (fuelFor opts) uid opts path)
    as [r Hr]; [done|].
  rewrite Hr. simpl. by apply (getDeepPopulate_fuel_le (fuelFor opts)).
Qed.

Lemma reduceM_pure {A B : Type} (g : B → A → B) (l : list A) (acc : B) :
  reduceM (fun acc x => Some (g acc x)) l acc = Some (fold_left g l acc).
Proof.
  revert acc. induction l as [|x l IH]; intros acc; simpl; [done|apply IH].
Qed.

Lemma populateAttribute_total rec uid model opts path acc entry :
  (∀ u p, rec u (nestedOptions opts (visitedOf opts ∪ {[uid]})) p
          = Some (getDeepPopulate u
                    (nestedOptions opts (visitedOf opts ∪ {[uid]})) p)) →
  populateAttribute rec uid model opts (visitedOf opts ∪ {[uid]}) path
                    acc entry
  = Some (applyEntry entry.1 (attributeEntry uid model opts path entry) acc).
Proof.
  intros Hrec. destruct entry as [name attr].
  unfold populateAttribute, attributeEntry, mret, option_ret. simpl.
  destruct (isExcluded uid name); [done|].
  destruct (includeOnly path name); [done|].
  destruct attr as [relation [t|]| |c|cs|ty];
    repeat (match goal with
            | |- Some _ = Some _ => done
            | |- (if ?b then _ else _) = _ => destruct b
            end).
  - by rewrite Hrec.
  - by rewrite Hrec.
  - erewrite reduceM_ext; [|intros acc' c _; rewrite Hrec; reflexivity].
    simpl.
    by rewrite (reduceM_pure
                  (fun acc' c =>
                     obj_set c
                       (wrapPopulate
                          (getDeepPopulate c
                             (nestedOptions opts (visitedOf opts ∪ {[uid]}))
                             ((path ++ [name]) ++ [c])))
                       acc')).
Qed.

Lemma getDeepPopulate_unfold uid opts path :
  getDeepPopulate uid opts path
  = if shouldStopAtCurrentDepth (Some uid) (depthOf opts) path then star
    else if (bool_decide (uid ∈ visitedOf opts) && (0 <? depthOf opts))%bool
    then star
    else
      match getModel uid with
      | None => star
      | Some model => JObj (populateAttributes uid model opts path)
      end.
Proof.
  pose proof (getDeepPopulate_fuel_total (S (fuelFor opts)) uid opts path)
    as Htotal.
  simpl in Htotal. unfold getDeepPopulate_body in Htotal. revert Htotal.
  destruct (shouldStopAtCurrentDepth _ _ _);
    [intros H; by injection (H ltac:(lia)) as <-|].
  destruct (_ && _)%bool eqn:Hrevisit;
    [intros H; by injection (H ltac:(lia)) as <-|].
  destruct (getModel uid) as [model|] eqn:Hmodel;
    [|intros H; by injection (H ltac:(lia)) as <-].
  erewrite reduceM_ext; last first.
  { intros acc x _. apply populateAttribute_total. intros u p.
    apply getDeepPopulate_fuel_total.
    pose proof (fuelFor_nested uid opts model Hrevisit Hmodel). lia. }
  rewrite (reduceM_pure
             (fun acc x => applyEntry x.1
                             (attributeEntry uid model opts path x) acc)).
  simpl. intros H. by injection (H ltac:(lia)) as <-.
Qed.

(** Induction along the recursive calls of [getDeepPopulate]. *)
Lemma getDeepPopulate_calls_ind
    (P : string → Options (gset string) → list string → Prop) :
  (∀ uid opts path,
      (∀ model u p,
          (bool_decide (uid ∈ visitedOf opts) && (0 <? depthOf opts))%bool
            = false →
          getModel uid = Some model →
          P u (nestedOptions opts (visitedOf opts ∪ {[uid]})) p) →
      P uid opts path) →
  ∀ uid opts path, P uid opts path.
Proof.
  intros Hstep uid opts. remember (fuelFor opts) as n eqn:Hn.
  revert uid opts Hn.
  induction (lt_wf n) as [n _ IH]. intros uid opts -> path.
  apply Hstep. intros model u p Hrevisit Hmodel.
  eapply IH; [|reflexivity]. by eapply fuelFor_nested.
Qed.

Lemma includes_Some (xs : list string) (s : string) :
  includes xs (Some s) = true ↔ s ∈ xs.
Proof.
  unfold includes. rewrite existsb_exists, list_elem_of_In. split.
  - intros (x & Hx & Heq). by apply String.eqb_eq in Heq as ->.
  - intros Hs. exists s. by rewrite String.eqb_refl.
Qed.

Lemma includes_Some_false (xs : list string) (s : string) :
  includes xs (Some s) = false ↔ s ∉ xs.
Proof.
  rewrite <- includes_Some. by destruct (includes xs (Some s)).
Qed.

Section CallbackExt.
Variables (uid : string) (model : Model) (opts : Options (gset string)).
Variables (newVisitedUIDs : gset string) (path : list string).

Lemma populateAttribute_ext
    (rec1 rec2 : string → Options (gset string) → list string
                 → option JsVal) acc entry :
  (∀ u p, rec1 u (nestedOptions opts newVisitedUIDs) p
          = rec2 u (nestedOptions opts newVisitedUIDs) p) →
  populateAttribute rec1 uid model opts newVisitedUIDs path acc entry
  = populateAttribute rec2 uid model opts newVisitedUIDs path acc entry.
Proof.
  intros Hrec. destruct entry as [name attr]. unfold populateAttribute.
  destruct (isExcluded uid name); [done|].
  destruct (includeOnly path name); [done|].
  destruct attr as [relation [t|]| |c|cs|ty]; try done.
  - by rewrite Hrec.
  - by rewrite Hrec.
  - f_equal. apply reduceM_ext. intros acc' c _. by rewrite Hrec.
Qed.
End CallbackExt.

Lemma getDeepPopulate_body_ext rec1 rec2 uid opts path :
  (∀ u o p,
      depthOf o = depthOf opts + 1 →
      visitedOf o = visitedOf opts ∪ {[uid]} →
      rec1 u o p = rec2 u o p) →
  getDeepPopulate_body rec1 uid opts path
  = getDeepPopulate_body rec2 uid opts path.
Proof.
  intros Hrec. unfold getDeepPopulate_body.
  destruct (shouldStopAtCurrentDepth _ _ _); [done|].
  destruct (_ && _)%bool; [done|].
  destruct (getModel uid) as [model|]; [|done].
  f_equal. apply reduceM_ext. intros acc x _.
  apply populateAttribute_ext. intros u p. by apply Hrec.
Qed.

Lemma getDeepPopulate_body_leaf rec uid opts path :
  shouldStopAtCurrentDepth (Some uid) (depthOf opts) path = true
  ∨ (uid ∈ visitedOf opts ∧ 0 < depthOf opts)
  ∨ getModel uid = None →
  getDeepPopulate_body rec uid opts path = Some star.
Proof.
  unfold getDeepPopulate_body. intros [->|[[Hin Hdepth]|Hmodel]]; [done| |].
  - rewrite bool_decide_eq_true_2 by done.
    apply Z.ltb_lt in Hdepth as ->.
    by destruct (shouldStopAtCurrentDepth _ _ _).
  - rewrite Hmodel. destruct (shouldStopAtCurrentDepth _ _ _); [done|].
    by destruct (_ && _)%bool.
Qed.

(** ** The stop predicate *)

Lemma objectPrototype_spec key :
  existsb (String.eqb key) objectPrototype = true ↔ key ∈ objectPrototype.
Proof. apply (includes_Some objectPrototype key). Qed.

Lemma lookupProperty_own table key n :
  table !! key = Some n → lookupProperty table key = OwnNumber n.
Proof. unfold lookupProperty. by intros ->. Qed.

Lemma lookupProperty_inherited table key :
  table !! key = None → key ∈ objectPrototype →
  lookupProperty table key = Inherited.
Proof.
  unfold lookupProperty. intros -> Hin%objectPrototype_spec. by rewrite Hin.
Qed.

Lemma lookupProperty_undefined table key :
  table !! key = None → key ∉ objectPrototype →
  lookupProperty table key = Undefined.
Proof.
  unfold lookupProperty. intros -> Hnot.
  destruct (existsb (String.eqb key) objectPrototype) eqn:Hin; [|done].
  by apply objectPrototype_spec in Hin.
Qed.

(** The stop predicate by cases on the own entry and on the inherited
    names. *)
Lemma shouldStopAtCurrentDepth_unfold uid currentDepth path :
  shouldStopAtCurrentDepth uid currentDepth path
  = match pathDepths cfg !! getPathKey path with
    | Some override => currentDepth >=? override
    | None =>
        if bool_decide (getPathKey path ∈ objectPrototype) then false
        else if includes (shallowPopulate cfg) uid then currentDepth >=? 1
        else if includes (mediumPopulate cfg) uid then currentDepth >=? 2
        else currentDepth >=? 3
    end.
Proof.
  unfold shouldStopAtCurrentDepth.
  destruct (pathDepths cfg !! getPathKey path) as [override|] eqn:Hown.
  { by rewrite (lookupProperty_own _ _ _ Hown). }
  case_bool_decide as Hin.
  - by rewrite (lookupProperty_inherited _ _ Hown Hin).
  - by rewrite (lookupProperty_undefined _ _ Hown Hin).
Qed.

(** The code stops only where the precedence table says so. *)
Lemma StopRule_sound uid currentDepth path :
  shouldStopAtCurrentDepth (Some uid) currentDepth path = true →
  StopRule uid currentDepth path.
Proof.
  rewrite shouldStopAtCurrentDepth_unfold. unfold getPathKey.
  destruct (pathDepths cfg !! String.concat "." path) as [override|] eqn:Hpath.
  { intros H%Z.geb_le. by eapply stop_path_override. }
  case_bool_decide as Hin; [done|].
  destruct (includes (shallowPopulate cfg) (Some uid)) eqn:Hshallow.
  { apply includes_Some in Hshallow.
    intros H%Z.geb_le. by apply stop_shallow. }
  apply includes_Some_false in Hshallow.
  destruct (includes (mediumPopulate cfg) (Some uid)) eqn:Hmedium.
  { apply includes_Some in Hmedium.
    intros H%Z.geb_le. by apply stop_medium. }
  apply includes_Some_false in Hmedium.
  intros H%Z.geb_le. by apply stop_default.
Qed.

(** It stops wherever the table says so, unless the key of the path is an
    inherited name without an entry of its own. *)
Lemma StopRule_complete uid currentDepth path :
  is_Some (pathDepths cfg !! String.concat "." path)
  ∨ String.concat "." path ∉ objectPrototype →
  StopRule uid currentDepth path →
  shouldStopAtCurrentDepth (Some uid) currentDepth path = true.
Proof.
  rewrite shouldStopAtCurrentDepth_unfold. unfold getPathKey.
  intros Hkey [override Hpath Hle|Hpath Hshallow Hle
              |Hpath Hshallow Hmedium Hle|Hpath Hshallow Hmedium Hle];
    rewrite Hpath; [by apply Z.geb_le| | |];
    (destruct Hkey as [[n Hn]|Hkey]; [congruence|]);
    rewrite bool_decide_eq_false_2 by done.
  - apply includes_Some in Hshallow. rewrite Hshallow.
    by apply Z.geb_le.
  - apply includes_Some_false in Hshallow. rewrite Hshallow.
    apply includes_Some in Hmedium. rewrite Hmedium. by apply Z.geb_le.
  - apply includes_Some_false in Hshallow. rewrite Hshallow.
    apply includes_Some_false in Hmedium. rewrite Hmedium.
    by apply Z.geb_le.
Qed.

(** On an inherited name without an entry of its own it never stops. *)
Lemma shouldStopAtCurrentDepth_inherited uid currentDepth path :
  pathDepths cfg !! String.concat "." path = None →
  String.concat "." path ∈ objectPrototype →
  shouldStopAtCurrentDepth uid currentDepth path = false.
Proof.
  intros Hown Hin. rewrite shouldStopAtCurrentDepth_unfold. unfold getPathKey.
  by rewrite Hown, bool_decide_eq_true_2.
Qed.

(** ** Termination *)

Lemma chainExpands_bounded opts uids :
  chainExpands opts uids → (length uids < fuelFor opts)%nat.
Proof.
  revert opts. induction uids as [|uid uids IH]; intros opts; simpl.
  - intros _. unfold fuelFor. lia.
  - intros (Hrevisit & [model Hmodel] & Hchain).
    apply IH in Hchain.
    pose proof (fuelFor_nested uid opts model Hrevisit Hmodel). lia.
Qed.

(** A [reduce] has a result exactly when each call of its callback has
    one, for a callback whose failure does not depend on the accumulator. *)
Lemma reduceM_leaf {A B : Type} (f : B → A → option B) (P : A → Prop)
    (l : list A) :
  (∀ acc x, is_Some (f acc x) ↔ P x) →
  ∀ acc, is_Some (reduceM f l acc) ↔ ∀ x, x ∈ l → P x.
Proof.
  intros Hf. induction l as [|x l IH]; intros acc; simpl.
  - split; [intros _ x Hx; by apply elem_of_nil in Hx|by eexists].
  - destruct (f acc x) as [acc'|] eqn:Hacc; simpl.
    + rewrite IH. split.
      * intros Hl y [->|Hy]%elem_of_cons; [|by apply Hl].
        apply (Hf acc). by rewrite Hacc.
      * intros Hl y Hy. apply Hl. by right.
    + split; [by intros [? [=]]|]. intros Hl.
      assert (is_Some (f acc x)) as [? ?] by (apply Hf, Hl; by left).
      congruence.
Qed.

(** The callback gets by without the recursive call exactly for the
    attributes that do not recurse. *)
Lemma populateAttribute_leaf uid model opts path acc entry :
  is_Some (populateAttribute (fun _ _ _ => None) uid model opts
                             (visitedOf opts ∪ {[uid]}) path acc entry)
  ↔ recurses uid model opts path entry = false.
Proof.
  destruct entry as [name attribute].
  unfold populateAttribute, recurses, relationPopulated, mret, option_ret.
  destruct (isExcluded uid name); [split; [done|by eexists]|].
  destruct (includeOnly path name); [split; [done|by eexists]|].
  destruct attribute as [relation target| |c|cs|ty].
  - destruct (isMorphRelation relation); cbn [negb andb orb];
      [split; [done|by eexists]|].
    destruct (String.eqb name CREATED_BY_ATTRIBUTE); cbn [negb andb orb];
      [split; [done|by eexists]|].
    destruct (String.eqb name UPDATED_BY_ATTRIBUTE); cbn [negb andb orb];
      [split; [done|by eexists]|].
    destruct (isVisibleAttribute model name); cbn [negb andb orb];
      [|split; [done|by eexists]].
    destruct (match relationalFields opts with
              | Some fs => includes fs (Some name)
              | None => true
              end); cbn [negb andb orb]; [|split; [done|by eexists]].
    destruct (shouldStopAtCurrentDepth target (depthOf opts + 1)
                                       (path ++ [name])); cbn [negb andb orb];
      [split; [done|by eexists]|].
    destruct target as [t|]; [|split; [done|by eexists]].
    destruct (String.eqb t ""); cbn [negb andb orb];
      [split; [done|by eexists]|].
    split; [by intros [? [=]]|done].
  - split; [done|by eexists].
  - simpl. split; [by intros [? [=]]|done].
  - destruct (default [] cs) as [|c cs']; simpl.
    + split; [done|by eexists].
    + split; [by intros [? [=]]|done].
  - split; [done|by eexists].
Qed.

Lemma is_Some_bind_ret {A B : Type} (m : option A) (g : A → B) :
  is_Some (x ← m; Some (g x)) ↔ is_Some m.
Proof.
  destruct m as [x|]; simpl; [split; by eexists|].
  split; by intros [? [=]].
Qed.

Lemma returnsWithoutRecursing_iff uid opts path :
  returnsWithoutRecursing uid opts path
  ↔ guardFires uid opts path
    ∨ ∃ model,
        getModel uid = Some model
        ∧ ∀ entry, entry ∈ attributes model →
                   recurses uid model opts path entry = false.
Proof.
  unfold returnsWithoutRecursing, guardFires, getDeepPopulate_body.
  destruct (shouldStopAtCurrentDepth _ _ _);
    [split; [by left; left|by eexists]|].
  destruct (bool_decide (uid ∈ visitedOf opts)) eqn:Hin; simpl.
  - apply bool_decide_eq_true in Hin.
    destruct (0 <? depthOf opts) eqn:Hdepth.
    { apply Z.ltb_lt in Hdepth.
      split; [by left; right; left|by eexists]. }
    apply Z.ltb_ge in Hdepth.
    destruct (getModel uid) as [model|];
      [|split; [by left; right; right|by eexists]].
    rewrite is_Some_bind_ret.
    rewrite (reduceM_leaf _ (λ entry, recurses uid model opts path entry
                                      = false));
      [|intros acc x; apply populateAttribute_leaf].
    split.
    + intros Hleaf. right. by exists model.
    + intros [[?|[[_ ?]|?]]|(model' & [= <-] & Hleaf)];
        [done|lia|done|done].
  - apply bool_decide_eq_false in Hin.
    destruct (getModel uid) as [model|];
      [|split; [by left; right; right|by eexists]].
    rewrite is_Some_bind_ret.
    rewrite (reduceM_leaf _ (λ entry, recurses uid model opts path entry
                                      = false));
      [|intros acc x; apply populateAttribute_leaf].
    split.
    + intros Hleaf. right. by exists model.
    + intros [[?|[[? _]|?]]|(model' & [= <-] & Hleaf)]; done.
Qed.

(** C1, as the code has it. [getDeepPopulate] terminates on every schema
    registry, cyclic or not: [fuelFor opts] steps of recursion always
    suffice and give the value of the total function. Every recursive call
    of the body is made one level deeper with the visited set grown by the
    current type, the measure behind [fuelFor] goes strictly down at each
    such call, so no chain of nested calls that keep expanding is longer
    than [fuelFor opts]. A call that hits the depth cap, a revisited type or
    a missing schema returns ['*'] without recursing; and a branch ends,
    that is a call returns without a recursive call, exactly at such a
    guard or at a type none of whose attributes recurses. *)
Theorem getDeepPopulate_terminates uid opts path :
  (∀ fuel, (fuelFor opts ≤ fuel)%nat →
           getDeepPopulate_fuel fuel uid opts path
           = Some (getDeepPopulate uid opts path))
  ∧ (∀ rec1 rec2,
        (∀ u o p,
            depthOf o = depthOf opts + 1 →
            visitedOf o = visitedOf opts ∪ {[uid]} →
            rec1 u o p = rec2 u o p) →
        getDeepPopulate_body rec1 uid opts path
        = getDeepPopulate_body rec2 uid opts path)
  ∧ (∀ model,
        (bool_decide (uid ∈ visitedOf opts) && (0 <? depthOf opts))%bool
          = false →
        getModel uid = Some model →
        (fuelFor (nestedOptions opts (visitedOf opts ∪ {[uid]}))
         < fuelFor opts)%nat)
  ∧ (∀ uids, chainExpands opts uids → (length uids < fuelFor opts)%nat)
  ∧ (shouldStopAtCurrentDepth (Some uid) (depthOf opts) path = true
     ∨ (uid ∈ visitedOf opts ∧ 0 < depthOf opts)
     ∨ getModel uid = None →
     ∀ rec, getDeepPopulate_body rec uid opts path = Some star)
  ∧ (returnsWithoutRecursing uid opts path
     ↔ (shouldStopAtCurrentDepth (Some uid) (depthOf opts) path = true
        ∨ (uid ∈ visitedOf opts ∧ 0 < depthOf opts)
        ∨ getModel uid = None)
       ∨ ∃ model,
           getModel uid = Some model
           ∧ ∀ entry, entry ∈ attributes model →
                      recurses uid model opts path entry = false).
Proof.
  split; [|split; [|split; [|split; [|split]]]].
  - intros fuel Hfuel. by apply getDeepPopulate_fuel_total.
  - intros rec1 rec2. apply getDeepPopulate_body_ext.
  - intros model. apply fuelFor_nested.
  - intros uids. apply chainExpands_bounded.
  - intros Hleaf rec. by apply getDeepPopulate_body_leaf.
  - apply returnsWithoutRecursing_iff.
Qed.

(** ** The shape of an expanded directive *)

Lemma getDeepPopulate_expands uid opts path model :
  shouldStopAtCurrentDepth (Some uid) (depthOf opts) path = false →
  (bool_decide (uid ∈ visitedOf opts) && (0 <? depthOf opts))%bool = false →
  getModel uid = Some model →
  getDeepPopulate uid opts path
  = JObj (populateAttributes uid model opts path).
Proof.
  intros Hstop Hrevisit Hmodel.
  by rewrite getDeepPopulate_unfold, Hstop, Hrevisit, Hmodel.
Qed.

Lemma getDeepPopulate_fields uid opts path fields :
  getDeepPopulate uid opts path = JObj fields →
  ∃ model,
    getModel uid = Some model
    ∧ shouldStopAtCurrentDepth (Some uid) (depthOf opts) path = false
    ∧ (bool_decide (uid ∈ visitedOf opts) && (0 <? depthOf opts))%bool
      = false
    ∧ fields = populateAttributes uid model opts path.
Proof.
  rewrite getDeepPopulate_unfold.
  destruct (shouldStopAtCurrentDepth _ _ _); [done|].
  destruct (_ && _)%bool; [done|].
  destruct (getModel uid) as [model|]; [|done].
  intros [= <-]. by exists model.
Qed.

(** Every field of the result is decided by its own attribute alone. *)
Lemma populateAttributes_get uid model opts path name attribute :
  (name, attribute) ∈ attributes model →
  obj_get name (populateAttributes uid model opts path)
  = attributeEntry uid model opts path (name, attribute).
Proof.
  intros Hin. unfold populateAttributes.
  rewrite (fold_applyEntry_at _ _ _ name attribute);
    [|apply attributes_NoDup|done].
  by destruct (attributeEntry _ _ _ _ _).
Qed.

Lemma populateAttributes_keys uid model opts path name :
  name ∈ obj_keys (populateAttributes uid model opts path) →
  ∃ attribute,
    (name, attribute) ∈ attributes model
    ∧ is_Some (attributeEntry uid model opts path (name, attribute)).
Proof.
  intros [Hnil|H]%fold_applyEntry_keys; [|done].
  by apply elem_of_nil in Hnil.
Qed.


(** ** Cycles *)


(** ** Fields, kind by kind *)

Lemma wrapPopulate_cases nested :
  wrapPopulate nested = populateOf nested
  ∨ wrapPopulate nested = populateOf star.
Proof. unfold wrapPopulate. destruct (isNonEmptyObject nested); auto. Qed.

Section Variants.
Variables (opts : Options (gset string)) (newVisitedUIDs : gset string).
Variables (currentPath : list string) (components : option (list string)).

Lemma variantsOf_get c :
  obj_get c (variantsOf opts newVisitedUIDs currentPath components)
  = if bool_decide (c ∈ default [] components) then
      Some (wrapPopulate
              (getDeepPopulate c (nestedOptions opts newVisitedUIDs)
                               (currentPath ++ [c])))
    else None.
Proof.
  unfold variantsOf.
  apply (fold_variants_get
           (λ c, wrapPopulate
                   (getDeepPopulate c (nestedOptions opts newVisitedUIDs)
                                    (currentPath ++ [c])))).
Qed.

Lemma variantsOf_keys c :
  c ∈ obj_keys (variantsOf opts newVisitedUIDs currentPath components)
  ↔ c ∈ default [] components.
Proof.
  unfold variantsOf.
  rewrite (fold_variants_keys
             (λ c, wrapPopulate
                     (getDeepPopulate c (nestedOptions opts newVisitedUIDs)
                                      (currentPath ++ [c])))).
  split; [|by left]. intros [?|H%elem_of_nil]; done.
Qed.

Lemma variantsOf_NoDup :
  NoDup (obj_keys (variantsOf opts newVisitedUIDs currentPath components)).
Proof.
  unfold variantsOf.
  apply (fold_variants_NoDup
           (λ c, wrapPopulate
                   (getDeepPopulate c (nestedOptions opts newVisitedUIDs)
                                    (currentPath ++ [c])))).
  apply NoDup_nil_2.
Qed.
End Variants.

Lemma attributeEntry_dynamiczone uid model opts path name components :
  isExcluded uid name = false →
  includeOnly path name = None →
  attributeEntry uid model opts path (name, DynamicZone components)
  = Some (onVariants
            (variantsOf opts (visitedOf opts ∪ {[uid]}) (path ++ [name])
                        components)).
Proof. intros Hex Hinc. unfold attributeEntry. by rewrite Hex, Hinc. Qed.

Lemma attributeEntry_neverPopulated uid model opts path name attribute :
  includeOnly path name = None →
  neverPopulated name attribute = true →
  attributeEntry uid model opts path (name, attribute) = None.
Proof.
  intros Hinc Hnever. unfold attributeEntry. rewrite Hinc.
  destruct (isExcluded uid name); [done|].
  destruct attribute as [relation target| | | |]; try done.
  simpl in Hnever. destruct (isMorphRelation relation); [done|].
  simpl in Hnever. by rewrite Hnever.
Qed.

Lemma attributeEntry_shallow_target uid model opts path name relation t v :
  includeOnly path name = None →
  shouldStopAtCurrentDepth (Some t) (depthOf opts + 1) (path ++ [name])
    = true →
  attributeEntry uid model opts path (name, Relation relation (Some t))
    = Some v →
  v = populateOf star.
Proof.
  intros Hinc Hstop. unfold attributeEntry. rewrite Hinc, Hstop.
  destruct (isExcluded uid name); [done|].
  destruct (isMorphRelation relation); [done|].
  destruct (_ || _)%bool; [done|].
  destruct (_ && _)%bool; [|done].
  by intros [= <-].
Qed.

(** The general form of C6: no include-only entry applies. *)
Lemma getDeepPopulate_omits uid opts path :
  (∀ p name, includeOnly p name = None) →
  omitsNeverPopulated uid (getDeepPopulate uid opts path).
Proof.
  intros Hinc. pattern uid, opts, path.
  apply getDeepPopulate_calls_ind. clear uid opts path.
  intros uid opts path IH. rewrite getDeepPopulate_unfold.
  destruct (shouldStopAtCurrentDepth _ _ _); [constructor|].
  destruct (_ && _)%bool eqn:Hrevisit; [constructor|].
  destruct (getModel uid) as [model|] eqn:Hmodel; [|constructor].
  specialize (IH model).
  apply (omits_fields uid model); [done| |].
  - intros name attribute Hin Hnever. apply obj_get_None.
    rewrite (populateAttributes_get _ _ _ _ _ attribute) by done.
    by apply attributeEntry_neverPopulated.
  - intros name v Hget.
    assert (name ∈ obj_keys (populateAttributes uid model opts path))
      as Hkey.
    { destruct (decide (name ∈ obj_keys
                          (populateAttributes uid model opts path)));
        [done|].
      apply obj_get_None in n. congruence. }
    apply populateAttributes_keys in Hkey as (attribute & Hin & _).
    exists attribute. split; [done|].
    rewrite (populateAttributes_get _ _ _ _ _ attribute) in Hget by done.
    revert Hget. unfold attributeEntry. rewrite Hinc.
    destruct (isExcluded uid name); [done|].
    destruct attribute as [relation [t|]| |c|cs|ty]; try done;
      repeat (match goal with
              | |- None = Some _ → _ => done
              | |- Some (populateOf star) = Some _ → _ =>
                  intros [= <-]; apply omits_flat
              | |- (if ?b then _ else _) = _ → _ => destruct b
              end).
    + intros [= <-].
      destruct (wrapPopulate_cases
                  (getDeepPopulate t
                     (nestedOptions opts (visitedOf opts ∪ {[uid]}))
                     (path ++ [name]))) as [-> | ->];
        [|apply omits_flat].
      apply omits_relation. by apply IH.
    + intros [= <-].
      destruct (wrapPopulate_cases
                  (getDeepPopulate c
                     (nestedOptions opts (visitedOf opts ∪ {[uid]}))
                     (path ++ [name]))) as [-> | ->];
        [|apply omits_flat].
      apply omits_component. by apply IH.
    + intros [= <-]. apply omits_variants. intros c v.
      rewrite variantsOf_get.
      destruct (bool_decide (c ∈ default [] cs)); [|done]. intros [= <-].
      destruct (wrapPopulate_cases
                  (getDeepPopulate c
                     (nestedOptions opts (visitedOf opts ∪ {[uid]}))
                     ((path ++ [name]) ++ [c]))) as [-> | ->].
      * eexists. split; [done|]. by apply IH.
      * exists star. split; [done|]. constructor.
Qed.

(** ** The [maxDepth] option *)

Lemma attributeEntry_maxDepth uid model opts path entry m1 m2 :
  (∀ u p m1 m2,
      getDeepPopulate u
        (withMaxDepth m1 (nestedOptions opts (visitedOf opts ∪ {[uid]}))) p
      = getDeepPopulate u
          (withMaxDepth m2 (nestedOptions opts (visitedOf opts ∪ {[uid]})))
          p) →
  attributeEntry uid model (withMaxDepth m1 opts) path entry
  = attributeEntry uid model (withMaxDepth m2 opts) path entry.
Proof.
  intros Hrec. destruct entry as [name attr]. unfold attributeEntry.
  change (visitedOf (withMaxDepth m1 opts)) with (visitedOf opts).
  change (visitedOf (withMaxDepth m2 opts)) with (visitedOf opts).
  change (depthOf (withMaxDepth m1 opts)) with (depthOf opts).
  change (depthOf (withMaxDepth m2 opts)) with (depthOf opts).
  change (relationalFields (withMaxDepth m1 opts))
    with (relationalFields opts).
  change (relationalFields (withMaxDepth m2 opts))
    with (relationalFields opts).
  assert (∀ m nv, nestedOptions (withMaxDepth m opts) nv
                  = withMaxDepth (Some (default 3 m)) (nestedOptions opts nv))
    as Hnested by done.
  rewrite !Hnested.
  destruct (isExcluded uid name); [done|].
  destruct (includeOnly path name); [done|].
  destruct attr as [relation [t|]| |c|cs|ty]; try done.
  - by rewrite (Hrec t _ (Some (default 3 m1)) (Some (default 3 m2))).
  - by rewrite (Hrec c _ (Some (default 3 m1)) (Some (default 3 m2))).
  - do 2 f_equal. unfold variantsOf. rewrite !Hnested.
    generalize (@nil (string * JsVal)).
    induction (default [] cs) as [|c' cs' IH]; intros acc; simpl; [done|].
    rewrite IH.
    by rewrite (Hrec c' _ (Some (default 3 m1)) (Some (default 3 m2))).
Qed.

(** C10. The [maxDepth] option is never consulted: whatever value it has
    (or when it is left out and defaults to 3), [getDeepPopulate] returns
    the same directive; depth limiting comes from [DEPTH_CONFIG] alone. *)
Theorem getDeepPopulate_maxDepth_irrelevant uid opts path m1 m2 :
  getDeepPopulate uid (withMaxDepth m1 opts) path
  = getDeepPopulate uid (withMaxDepth m2 opts) path.
Proof.
  revert m1 m2. pattern uid, opts, path.
  apply getDeepPopulate_calls_ind. clear uid opts path.
  intros uid opts path IH m1 m2. rewrite !getDeepPopulate_unfold.
  change (visitedOf (withMaxDepth m1 opts)) with (visitedOf opts).
  change (visitedOf (withMaxDepth m2 opts)) with (visitedOf opts).
  change (depthOf (withMaxDepth m1 opts)) with (depthOf opts).
  change (depthOf (withMaxDepth m2 opts)) with (depthOf opts).
  destruct (shouldStopAtCurrentDepth _ _ _); [done|].
  destruct (_ && _)%bool eqn:Hrevisit; [done|].
  destruct (getModel uid) as [model|] eqn:Hmodel; [|done].
  f_equal. unfold populateAttributes.
  generalize (@nil (string * JsVal)).
  induction (attributes model) as [|entry l IHl]; intros acc; simpl; [done|].
  rewrite IHl. do 2 f_equal. apply attributeEntry_maxDepth.
  intros u p m1' m2'. by eapply IH.
Qed.

(** ** Sets in a store *)

Lemma storeM_bind_Some {A B : Type} (m : StoreM A) (f : A → StoreM B)
    (σ σ' : Store) (x : A) :
  m σ = Some (x, σ') → (m ≫= f) σ = f x σ'.
Proof. intros Hm. unfold mbind, storeM_bind. by rewrite Hm. Qed.

Lemma reduceM_store {A B : Type} (f : B → A → StoreM B) (g : B → A → B)
    (σ0 : Store) (l : list A) :
  (∀ acc x k, ∃ extra,
      f acc x (σ0 ++ k) = Some (g acc x, (σ0 ++ k) ++ extra)) →
  ∀ acc k, ∃ extra,
    reduceM f l acc (σ0 ++ k) = Some (fold_left g l acc, (σ0 ++ k) ++ extra).
Proof.
  intros Hf. induction l as [|x l IH]; intros acc k; simpl.
  - exists []. unfold mret, storeM_ret. by rewrite app_nil_r.
  - destruct (Hf acc x k) as [e1 H1].
    destruct (IH (g acc x) (k ++ e1)) as [e2 H2].
    rewrite app_assoc in H2.
    exists (e1 ++ e2). rewrite (storeM_bind_Some _ _ _ _ _ H1).
    rewrite H2. by rewrite !app_assoc.
Qed.

Lemma populateAttribute_store
    (rec : string → Options nat → list string → StoreM JsVal)
    (uid : string) (model : Model) (opts : Options nat) (ref : nat)
    (path : list string) (σ0 : Store) (optsV : Options (gset string)) :
  relationalFields opts = relationalFields optsV →
  depthOf opts = depthOf optsV →
  (∀ u p k, ∃ extra,
      rec u (nestedOptions opts ref) p (σ0 ++ k)
      = Some (getDeepPopulate u
                (nestedOptions optsV (visitedOf optsV ∪ {[uid]})) p,
              (σ0 ++ k) ++ extra)) →
  ∀ acc entry k, ∃ extra,
    populateAttribute rec uid model opts ref path acc entry (σ0 ++ k)
    = Some (applyEntry entry.1 (attributeEntry uid model optsV path entry)
                       acc,
            (σ0 ++ k) ++ extra).
Proof.
  intros Hfields Hdepth Hrec acc [name attr] k.
  unfold populateAttribute, attributeEntry. rewrite Hfields, Hdepth.
  assert (∀ v : list (string * JsVal), ∃ extra,
             mret (M:=StoreM) v (σ0 ++ k) = Some (v, (σ0 ++ k) ++ extra))
    as Hret.
  { intros v. exists []. unfold mret, storeM_ret. by rewrite app_nil_r. }
  destruct (isExcluded uid name); [apply Hret|].
  destruct (includeOnly path name); [apply Hret|].
  destruct attr as [relation [t|]| |c|cs|ty];
    repeat (match goal with
            | |- ∃ _, mret _ _ = _ => apply Hret
            | |- ∃ _, (if ?b then _ else _) _ = _ => destruct b
            end).
  - destruct (Hrec t (path ++ [name]) k) as [extra Ht].
    exists extra. by rewrite (storeM_bind_Some _ _ _ _ _ Ht).
  - destruct (Hrec c (path ++ [name]) k) as [extra Hc].
    exists extra. by rewrite (storeM_bind_Some _ _ _ _ _ Hc).
  - assert (∀ acc' c k', ∃ extra,
               (componentPopulate ←
                  rec c (nestedOptions opts ref) ((path ++ [name]) ++ [c]);
                mret (M:=StoreM)
                     (obj_set c (wrapPopulate componentPopulate) acc'))
                 (σ0 ++ k')
               = Some (obj_set c
                         (wrapPopulate
                            (getDeepPopulate c
                               (nestedOptions optsV
                                  (visitedOf optsV ∪ {[uid]}))
                               ((path ++ [name]) ++ [c])))
                         acc',
                       (σ0 ++ k') ++ extra)) as Hvariant.
    { intros acc' c k'.
      destruct (Hrec c ((path ++ [name]) ++ [c]) k') as [extra Hc].
      exists extra. rewrite (storeM_bind_Some _ _ _ _ _ Hc).
      unfold mret, storeM_ret. done. }
    destruct (reduceM_store
                (λ acc' c,
                   componentPopulate ←
                     rec c (nestedOptions opts ref)
                         ((path ++ [name]) ++ [c]);
                   mret (M:=StoreM)
                        (obj_set c (wrapPopulate componentPopulate) acc'))
                (λ acc' c,
                   obj_set c
                     (wrapPopulate
                        (getDeepPopulate c
                           (nestedOptions optsV (visitedOf optsV ∪ {[uid]}))
                           ((path ++ [name]) ++ [c])))
                     acc')
                σ0 (default [] cs) Hvariant [] k)
      as [extra Hfold].
    exists extra. by rewrite (storeM_bind_Some _ _ _ _ _ Hfold).
Qed.

Lemma optionsIn_nested σ opts ref visited :
  σ !! ref = Some visited →
  optionsIn σ (nestedOptions opts ref)
  = nestedOptions (optionsIn σ opts) visited.
Proof.
  intros Href. unfold optionsIn, nestedOptions. simpl. by rewrite Href.
Qed.

Lemma getDeepPopulate_store_refines fuel uid opts path σ :
  (∀ ref, visitedUIDs opts = Some ref → (ref < length σ)%nat) →
  (fuelFor (optionsIn σ opts) ≤ fuel)%nat →
  ∃ extra,
    getDeepPopulate_store fuel uid opts path σ
    = Some (getDeepPopulate uid (optionsIn σ opts) path, σ ++ extra).
Proof.
  revert uid opts path σ.
  induction fuel as [|fuel IH]; intros uid opts path σ Hwf Hfuel.
  { unfold fuelFor in Hfuel. lia. }
  simpl. unfold getDeepPopulate_store_body.
  rewrite getDeepPopulate_unfold.
  change (depthOf (optionsIn σ opts)) with (depthOf opts).
  erewrite storeM_bind_Some; [|reflexivity].
  destruct (shouldStopAtCurrentDepth _ _ _).
  { by exists [∅]. }
  assert (default ∅ ((σ ++ [∅]) !! default (length σ) (visitedUIDs opts))
          = visitedOf (optionsIn σ opts)) as Hvisited.
  { unfold visitedOf, optionsIn. simpl.
    destruct (visitedUIDs opts) as [ref|] eqn:Href; simpl.
    - by rewrite lookup_app_l by (by apply Hwf).
    - by rewrite list_lookup_middle. }
  erewrite storeM_bind_Some; [|reflexivity]. rewrite Hvisited.
  destruct (_ && _)%bool eqn:Hrevisit.
  { by exists [∅]. }
  destruct (getModel uid) as [model|] eqn:Hmodel.
  2: { by exists [∅]. }
  set (V := visitedOf (optionsIn σ opts) ∪ {[uid]}).
  set (σ3 := (σ ++ [∅]) ++ [V]).
  erewrite storeM_bind_Some; [|reflexivity].
  erewrite (storeM_bind_Some _ _ _ σ3); last first.
  { unfold setAdd. rewrite (alter_app_r_alt _ (σ ++ [∅])) by done.
    by rewrite Nat.sub_diag. }
  assert (∀ k, optionsIn (σ3 ++ k) opts = optionsIn σ opts) as Hsame.
  { intros k. unfold optionsIn. f_equal.
    destruct (visitedUIDs opts) as [ref|] eqn:Hopt; [|done]. simpl.
    unfold σ3. rewrite <- !app_assoc.
    by rewrite lookup_app_l by (by apply Hwf). }
  assert (∀ acc entry k, ∃ extra,
             populateAttribute (getDeepPopulate_store fuel) uid model opts
                               (length (σ ++ [∅])) path acc entry (σ3 ++ k)
             = Some (applyEntry entry.1
                       (attributeEntry uid model (optionsIn σ opts) path
                                       entry) acc,
                     (σ3 ++ k) ++ extra)) as Hcallback.
  { apply populateAttribute_store; [done|done|].
    intros u p k.
    assert ((σ3 ++ k) !! length (σ ++ [∅]) = Some V) as Href.
    { unfold σ3. rewrite <- app_assoc. by apply list_lookup_middle. }
    destruct (IH u (nestedOptions opts (length (σ ++ [∅]))) p (σ3 ++ k))
      as [extra Hu].
    - intros ref [= <-]. unfold σ3. rewrite !length_app. simpl. lia.
    - rewrite (optionsIn_nested _ _ _ V), Hsame by done.
      pose proof (fuelFor_nested uid (optionsIn σ opts) model
                    Hrevisit Hmodel) as Hlt.
      fold V in Hlt. lia.
    - exists extra. rewrite Hu.
      by rewrite (optionsIn_nested _ _ _ V), Hsame by done. }
  destruct (reduceM_store
              (populateAttribute (getDeepPopulate_store fuel) uid model opts
                                 (length (σ ++ [∅])) path)
              (λ acc entry,
                 applyEntry entry.1
                   (attributeEntry uid model (optionsIn σ opts) path entry)
                   acc)
              σ3 (attributes model) Hcallback [] [])
    as [extra Hfold].
  rewrite app_nil_r in Hfold.
  rewrite (storeM_bind_Some _ _ _ _ _ Hfold).
  exists ([∅; V] ++ extra). unfold mret, storeM_ret.
  unfold σ3. by rewrite <- !app_assoc.
Qed.

(** C8. A call of [getDeepPopulate] leaves every set that existed before
    the call as it was, the caller's visited set among them: the store
    only grows by the sets the call creates ([uid] is added to a fresh
    copy). The directive it returns is the one computed from the
    ancestors alone, so what one branch added is never seen by a sibling
    branch. *)
Theorem getDeepPopulate_store_frame fuel uid opts path σ :
  (∀ ref, visitedUIDs opts = Some ref → (ref < length σ)%nat) →
  (fuelFor (optionsIn σ opts) ≤ fuel)%nat →
  ∃ σ',
    getDeepPopulate_store fuel uid opts path σ
    = Some (getDeepPopulate uid (optionsIn σ opts) path, σ')
    ∧ (∀ ref, (ref < length σ)%nat → σ' !! ref = σ !! ref)
    ∧ optionsIn σ' opts = optionsIn σ opts.
Proof.
  intros Hwf Hfuel.
  destruct (getDeepPopulate_store_refines fuel uid opts path σ Hwf Hfuel)
    as [extra Hrun].
  exists (σ ++ extra). split; [done|]. split.
  - intros ref Href. by apply lookup_app_l.
  - unfold optionsIn. f_equal.
    destruct (visitedUIDs opts) as [ref|] eqn:Hopt; [|done]. simpl.
    by rewrite lookup_app_l by (by apply Hwf).
Qed.

(** ** The middleware *)

Lemma getDeepPopulate_truthy uid opts path :
  truthy (getDeepPopulate uid opts path) = true.
Proof.
  rewrite getDeepPopulate_unfold.
  destruct (shouldStopAtCurrentDepth _ _ _); [done|].
  destruct (_ && _)%bool; [done|].
  by destruct (getModel uid).
Qed.

Lemma interceptConditions_spec ctx :
  (String.prefix "/api/" (url ctx)
   && String.eqb (method ctx) "GET"
   && negb (from_option truthy false (populate ctx))
   && negb (strIncludes "/api/users" (url ctx))
   && negb (strIncludes "/api/seo" (url ctx)))%bool = true
  ↔ interceptConditions ctx.
Proof.
  unfold interceptConditions.
  rewrite !andb_true_iff, !negb_true_iff, String.eqb_eq. tauto.
Qed.

Lemma deepPopulate_cases pluralize ctx :
  (interceptConditions ctx
   ∧ extractPathSegment (url ctx) ≠ ""
   ∧ pluralize (extractPathSegment (url ctx)) ≠ ""
   ∧ (deepPopulate pluralize ctx).2
     = {| url := url ctx; method := method ctx;
          populate :=
            Some (getDeepPopulate
                    ("api::" +:+ pluralize (extractPathSegment (url ctx))
                     +:+ "." +:+ pluralize (extractPathSegment (url ctx)))
                    noOptions []) |})
  ∨ (¬ (interceptConditions ctx
        ∧ extractPathSegment (url ctx) ≠ ""
        ∧ pluralize (extractPathSegment (url ctx)) ≠ "")
     ∧ (deepPopulate pluralize ctx).2 = ctx).
Proof.
  unfold deepPopulate.
  destruct (_ && _)%bool eqn:Hcond.
  - apply interceptConditions_spec in Hcond.
    destruct (String.eqb (extractPathSegment (url ctx)) "") eqn:Hseg.
    { apply String.eqb_eq in Hseg. right. split; [|done]. tauto. }
    apply String.eqb_neq in Hseg.
    destruct (String.eqb (pluralize (extractPathSegment (url ctx))) "")
      eqn:Hsing.
    { apply String.eqb_eq in Hsing. right. split; [|done]. tauto. }
    apply String.eqb_neq in Hsing. by left.
  - right. split; [|done]. intros (Hopen & _).
    apply interceptConditions_spec in Hopen. congruence.
Qed.

(** ** Unknown types *)


(** C9, as the code has it. The middleware sets [ctx.query.populate]
    exactly when the four conditions hold and, moreover, a content type
    is extracted from the URL and its singular is not empty; it then sets
    it to the directive of [api::<singular>.<singular>], built with no
    options and the empty path. In every other case the context reaches
    [next()] unchanged; when extraction or singularization fails although
    the four conditions hold this is logged as a warning. *)
Theorem deepPopulate_injects pluralize ctx :
  (injectsDirective pluralize ctx
   ↔ interceptConditions ctx
     ∧ extractPathSegment (url ctx) ≠ ""
     ∧ pluralize (extractPathSegment (url ctx)) ≠ "")
  ∧ (injectsDirective pluralize ctx →
     (deepPopulate pluralize ctx).2
     = {| url := url ctx; method := method ctx;
          populate :=
            Some (getDeepPopulate
                    ("api::" +:+ pluralize (extractPathSegment (url ctx))
                     +:+ "." +:+ pluralize (extractPathSegment (url ctx)))
                    noOptions []) |})
  ∧ (¬ injectsDirective pluralize ctx → (deepPopulate pluralize ctx).2 = ctx)
  ∧ (interceptConditions ctx →
     extractPathSegment (url ctx) = ""
     ∨ pluralize (extractPathSegment (url ctx)) = "" →
     (deepPopulate pluralize ctx).2 = ctx
     ∧ ∃ msg, LogWarn msg ∈ (deepPopulate pluralize ctx).1).
Proof.
  assert (injectsDirective pluralize ctx
          ↔ interceptConditions ctx
            ∧ extractPathSegment (url ctx) ≠ ""
            ∧ pluralize (extractPathSegment (url ctx)) ≠ "") as Hiff.
  { unfold injectsDirective.
    destruct (deepPopulate_cases pluralize ctx)
      as [(Hopen & Hseg & Hsing & ->)|[Hnot ->]].
    - split; [done|]. intros _. simpl.
      destruct Hopen as (_ & _ & Hfalsy & _). intros Heq.
      rewrite <- Heq in Hfalsy. simpl in Hfalsy.
      by rewrite getDeepPopulate_truthy in Hfalsy.
    - split; [done|]. intros H. by apply Hnot in H. }
  split; [done|]. split; [|split].
  - intros Hinj. apply Hiff in Hinj.
    destruct (deepPopulate_cases pluralize ctx)
      as [(_ & _ & _ & ->)|[Hnot _]]; [done|]. by apply Hnot in Hinj.
  - intros Hinj. rewrite Hiff in Hinj.
    destruct (deepPopulate_cases pluralize ctx)
      as [(Hopen & Hseg & Hsing & _)|[_ ->]]; [|done].
    exfalso. by apply Hinj.
  - intros Hopen Hfail. apply interceptConditions_spec in Hopen.
    unfold deepPopulate. rewrite Hopen.
    destruct (String.eqb (extractPathSegment (url ctx)) "") eqn:Hseg.
    { split; [done|]. eexists. simpl. right. left. }
    apply String.eqb_neq in Hseg. destruct Hfail as [?|Hsing]; [done|].
    apply String.eqb_eq in Hsing. rewrite Hsing.
    split; [done|]. eexists. simpl. right. left.
Qed.

(** ** [extractPathSegment] *)

Lemma append_nil (b : string) : "" +:+ b = b.
Proof. reflexivity. Qed.

Lemma append_cons (c : ascii) (a b : string) :
  String c a +:+ b = String c (a +:+ b).
Proof. reflexivity. Qed.

Lemma append_assoc_string (a b c : string) :
  (a +:+ b) +:+ c = a +:+ b +:+ c.
Proof.
  forget_parameters.
  induction a as [|x a IH]; rewrite ?append_nil, ?append_cons; [done|].
  by rewrite IH.
Qed.

Lemma substring_all (s : string) : String.substring 0 (String.length s) s = s.
Proof.
  forget_parameters. induction s as [|c s IH]; simpl; [done|by f_equal].
Qed.

Lemma noSeparator_noQuery s : noSeparator s = true → noQuery s = true.
Proof.
  forget_parameters. induction s as [|c s IH]; simpl; [done|].
  intros [Hc Hs]%andb_true_iff. rewrite (IH Hs), andb_true_r.
  apply negb_true_iff. apply negb_true_iff, orb_false_iff in Hc. tauto.
Qed.

Lemma noQuery_app a b :
  noQuery (a +:+ b) = (noQuery a && noQuery b)%bool.
Proof.
  forget_parameters.
  induction a as [|c a IH]; rewrite ?append_nil, ?append_cons; simpl; [done|].
  by rewrite IH, andb_assoc.
Qed.

Lemma beforeQuery_app a b :
  noQuery a = true → beforeQuery (a +:+ b) = a +:+ beforeQuery b.
Proof.
  forget_parameters.
  induction a as [|c a IH]; rewrite ?append_nil, ?append_cons; simpl; [done|].
  intros [Hc Ha]%andb_true_iff. apply negb_true_iff in Hc.
  by rewrite Hc, IH.
Qed.

Lemma beforeQuery_noQuery a : noQuery a = true → beforeQuery a = a.
Proof.
  forget_parameters. induction a as [|c a IH]; simpl; [done|].
  intros [Hc Ha]%andb_true_iff. apply negb_true_iff in Hc.
  by rewrite Hc, IH.
Qed.

Lemma beforeQuery_is_noQuery a : noQuery (beforeQuery a) = true.
Proof.
  forget_parameters. induction a as [|c a IH]; simpl; [done|].
  destruct (Ascii.eqb c "?") eqn:Hc; simpl; [done|]. by rewrite Hc, IH.
Qed.

Lemma isDigit_not_separator c :
  isDigit c = true →
  Ascii.eqb c "/" = false ∧ Ascii.eqb c "?" = false.
Proof.
  forget_parameters. intros Hdigit. split.
  - destruct (Ascii.eqb_spec c "/") as [->|]; [discriminate Hdigit|done].
  - destruct (Ascii.eqb_spec c "?") as [->|]; [discriminate Hdigit|done].
Qed.

Lemma allDigits_noQuery s : allDigits s = true → noQuery s = true.
Proof.
  forget_parameters. induction s as [|c s IH]; simpl; [done|].
  intros [Hc Hs]%andb_true_iff.
  apply isDigit_not_separator in Hc as [_ ->]. by rewrite IH.
Qed.

Lemma matchesTail_noQuery tail : matchesTail tail = true → noQuery tail = true.
Proof.
  forget_parameters. destruct tail as [|c digits]; simpl; [done|].
  intros [Hc Hdigits]%andb_true_iff. apply Ascii.eqb_eq in Hc as ->.
  by apply allDigits_noQuery.
Qed.

Lemma splitSegment_app seg rest :
  noSeparator seg = true →
  rest = "" ∨ (∃ rest', rest = String "/" rest') →
  splitSegment (seg +:+ rest) = (seg, rest).
Proof.
  forget_parameters. intros Hseg Hrest.
  induction seg as [|c seg IH]; rewrite ?append_nil, ?append_cons; simpl.
  - destruct Hrest as [->|[rest' ->]]; done.
  - simpl in Hseg. apply andb_true_iff in Hseg as [Hc Hseg].
    apply negb_true_iff in Hc. by rewrite Hc, IH.
Qed.

Lemma splitSegment_spec s seg rest :
  splitSegment s = (seg, rest) →
  s = seg +:+ rest ∧ noSeparator seg = true.
Proof.
  forget_parameters. revert seg rest.
  induction s as [|c s IH]; simpl; intros seg rest.
  - by intros [= <- <-].
  - destruct (_ || _)%bool eqn:Hc; [by intros [= <- <-]|].
    destruct (splitSegment s) as [seg' rest'].
    intros [= <- <-]. destruct (IH seg' rest' eq_refl) as [-> Hseg'].
    rewrite append_cons. simpl. by rewrite Hc, Hseg'.
Qed.

Lemma prefix_split a s :
  String.prefix a s = true →
  s = a +:+ String.substring (String.length a)
                             (String.length s - String.length a) s.
Proof.
  forget_parameters. revert s.
  induction a as [|x a IH]; intros s; rewrite ?append_nil, ?append_cons; simpl.
  - intros _. by rewrite Nat.sub_0_r, substring_all.
  - destruct s as [|y s]; simpl; [done|].
    destruct (ascii_dec x y) as [->|]; [|done].
    intros Hprefix. by rewrite <- (IH s Hprefix).
Qed.

Lemma append_empty_r (s : string) : s +:+ "" = s.
Proof.
  forget_parameters.
  induction s as [|c s IH]; rewrite ?append_nil, ?append_cons; [done|].
  by rewrite IH.
Qed.

Lemma beforeQuery_query s query :
  noQuery s = true → beforeQuery (s +:+ String "?" query) = s.
Proof.
  forget_parameters. intros Hs. rewrite beforeQuery_app by done.
  simpl. apply append_empty_r.
Qed.

Lemma extractPathSegment_query url query :
  noQuery url = true →
  extractPathSegment (url +:+ String "?" query) = extractPathSegment url.
Proof.
  forget_parameters. intros Hurl. unfold extractPathSegment.
  by rewrite beforeQuery_query, beforeQuery_noQuery.
Qed.

Lemma prefix_append a b : String.prefix a (a +:+ b) = true.
Proof.
  forget_parameters. apply String.prefix_correct.
  induction a as [|x a IH]; rewrite ?append_nil, ?append_cons; simpl.
  - by destruct b.
  - by rewrite IH.
Qed.

Lemma extractPathSegment_api rest :
  noQuery rest = true →
  extractPathSegment ("/api/" +:+ rest)
  = let '(seg, tail) := splitSegment rest in
    if (negb (String.eqb seg "") && matchesTail tail)%bool then seg else "".
Proof.
  forget_parameters. intros Hrest. unfold extractPathSegment.
  rewrite beforeQuery_noQuery by done.
  rewrite prefix_append.
  change (String.substring 5 (String.length ("/api/" +:+ rest) - 5)
                           ("/api/" +:+ rest))
    with (String.substring 0 (String.length rest - 0) rest).
  by rewrite Nat.sub_0_r, substring_all.
Qed.

(** X1. A URL [/api/<segment>], optionally followed by [/] or [/<digits>]
    and then by any query string, yields [<segment>], for every non-empty
    segment free of [/] and [?]. *)
Theorem extractPathSegment_accepts seg tail query :
  seg ≠ "" → noSeparator seg = true → matchesTail tail = true →
  extractPathSegment ("/api/" +:+ seg +:+ tail) = seg
  ∧ extractPathSegment ("/api/" +:+ seg +:+ tail +:+ String "?" query) = seg.
Proof.
  forget_parameters. intros Hne Hseg Htail.
  assert (noQuery (seg +:+ tail) = true) as Hclean.
  { rewrite noQuery_app, (noSeparator_noQuery _ Hseg).
    by apply matchesTail_noQuery. }
  assert (tail = "" ∨ (∃ rest', tail = String "/" rest')) as Hshape.
  { destruct tail as [|c digits]; [by left|right].
    simpl in Htail. apply andb_true_iff in Htail as [Hc _].
    apply Ascii.eqb_eq in Hc as ->. by eexists. }
  assert (extractPathSegment ("/api/" +:+ seg +:+ tail) = seg) as Hplain.
  { rewrite extractPathSegment_api by done.
    rewrite splitSegment_app by done. rewrite Htail, andb_true_r.
    apply String.eqb_neq in Hne. by rewrite Hne. }
  split; [done|]. rewrite <- Hplain at 2.
  rewrite <- (append_assoc_string seg tail).
  rewrite <- (append_assoc_string "/api/" (seg +:+ tail)).
  apply extractPathSegment_query. by rewrite noQuery_app, Hclean.
Qed.

(** X2. Whenever [extractPathSegment] returns a non-empty segment, that
    segment has no [/] and no [?], and the URL up to its query string is
    [/api/<segment>] followed by nothing, by [/] or by [/<digits>]. *)
Theorem extractPathSegment_sound url seg :
  extractPathSegment url = seg → seg ≠ "" →
  noSeparator seg = true
  ∧ ∃ tail, beforeQuery url = "/api/" +:+ seg +:+ tail
            ∧ matchesTail tail = true.
Proof.
  forget_parameters. unfold extractPathSegment.
  destruct (String.prefix "/api/" (beforeQuery url)) eqn:Hprefix;
    [|by intros <-].
  apply prefix_split in Hprefix.
  change (String.length "/api/") with 5%nat in Hprefix.
  set (rest := String.substring 5 (String.length (beforeQuery url) - 5)
                                (beforeQuery url)) in *.
  clearbody rest. rename Hprefix into Hurl.
  destruct (splitSegment rest) as [seg' tail] eqn:Hsplit.
  apply splitSegment_spec in Hsplit as [-> Hseg'].
  destruct (_ && _)%bool eqn:Hcond; [|by intros <-].
  apply andb_true_iff in Hcond as [_ Htail].
  intros <- _. split; [done|]. by exists tail.
Qed.

Lemma extractPathSegment_beforeQuery url :
  extractPathSegment url = extractPathSegment (beforeQuery url).
Proof.
  forget_parameters. unfold extractPathSegment.
  by rewrite (beforeQuery_noQuery (beforeQuery url))
    by apply beforeQuery_is_noQuery.
Qed.

(** X3. A second path segment that is not made of digits only is not
    accepted: [/api/<segment>/<id>] yields the empty string whenever [<id>]
    (up to the query string) contains a character that is not a digit, as
    string document identifiers do. *)
Theorem extractPathSegment_rejects_id seg id :
  noSeparator seg = true → allDigits (beforeQuery id) = false →
  extractPathSegment ("/api/" +:+ seg +:+ String "/" id) = "".
Proof.
  forget_parameters. intros Hseg Hid.
  rewrite extractPathSegment_beforeQuery.
  rewrite (beforeQuery_app "/api/") by done.
  rewrite (beforeQuery_app seg) by (by apply noSeparator_noQuery).
  change (beforeQuery (String "/" id)) with (String "/" (beforeQuery id)).
  rewrite extractPathSegment_api.
  - rewrite splitSegment_app; [|done|right; by eexists].
    simpl matchesTail. rewrite Hid. simpl. by rewrite andb_false_r.
  - rewrite noQuery_app, (noSeparator_noQuery _ Hseg). simpl.
    apply beforeQuery_is_noQuery.
Qed.

(** ** More on the middleware *)

Lemma index_0_cons sub c rest :
  String.index 0 sub (String c rest)
  = if String.prefix sub (String c rest) then Some 0%nat
    else match String.index 0 sub rest with
         | Some n => Some (S n)
         | None => None
         end.
Proof. reflexivity. Qed.

Lemma strIncludes_app sub a b : strIncludes sub (a +:+ sub +:+ b) = true.
Proof.
  forget_parameters. unfold strIncludes.
  induction a as [|x a IH]; rewrite ?append_nil, ?append_cons.
  - destruct (sub +:+ b) as [|c rest] eqn:Hsb.
    + destruct sub; [done|discriminate Hsb].
    + rewrite index_0_cons, <- Hsb. by rewrite prefix_append.
  - rewrite index_0_cons.
    destruct (String.prefix sub (String x (a +:+ sub +:+ b))); [done|].
    by destruct (String.index 0 sub (a +:+ sub +:+ b)).
Qed.

(** X4. The two excluded namespaces are matched as substrings of the whole
    URL: a request whose URL contains [/api/users] or [/api/seo] anywhere,
    also as the head of a longer name or inside the query string, is handed
    to [next()] untouched and nothing is logged. *)
Theorem deepPopulate_excluded_substring pluralize ctx a b :
  url ctx = a +:+ "/api/users" +:+ b ∨ url ctx = a +:+ "/api/seo" +:+ b →
  deepPopulate pluralize ctx = ([], ctx).
Proof.
  intros Hurl. unfold deepPopulate.
  assert (strIncludes "/api/users" (url ctx) = true
          ∨ strIncludes "/api/seo" (url ctx) = true) as [Hinc|Hinc].
  { destruct Hurl as [-> | ->]; [left|right]; apply strIncludes_app. }
  - rewrite Hinc. simpl. by rewrite andb_false_r.
  - rewrite Hinc. simpl. by rewrite andb_false_r.
Qed.

(** X5. A populate directive supplied by the caller is never replaced, and
    the middleware is idempotent on the context: running it on the context
    it hands to [next()] hands on that same context. *)
Theorem deepPopulate_idempotent pluralize ctx :
  (from_option truthy false (populate ctx) = true →
   deepPopulate pluralize ctx = ([], ctx))
  ∧ (deepPopulate pluralize (deepPopulate pluralize ctx).2).2
    = (deepPopulate pluralize ctx).2.
Proof.
  assert (∀ c, from_option truthy false (populate c) = true →
               deepPopulate pluralize c = ([], c)) as Hkeep.
  { intros c Htruthy. unfold deepPopulate. rewrite Htruthy. simpl.
    by rewrite andb_false_r. }
  split; [apply Hkeep|].
  destruct (deepPopulate_cases pluralize ctx)
    as [(_ & _ & _ & Hrun)|[_ Hrun]]; rewrite Hrun.
  - rewrite Hkeep; [done|]. simpl. apply getDeepPopulate_truthy.
  - done.
Qed.

(** ** More on the stop predicate *)

Lemma getPathKey_dotted path a b :
  getPathKey (path ++ [a +:+ "." +:+ b]) = getPathKey (path ++ [a; b]).
Proof.
  forget_parameters. unfold getPathKey.
  induction path as [|x path IH]; [done|].
  destruct path as [|y path]; [done|].
  change (String.concat "." ((x :: y :: path) ++ [a +:+ "." +:+ b]))
    with (x +:+ "." +:+ String.concat "." ((y :: path) ++ [a +:+ "." +:+ b])).
  change (String.concat "." ((x :: y :: path) ++ [a; b]))
    with (x +:+ "." +:+ String.concat "." ((y :: path) ++ [a; b])).
  by rewrite IH.
Qed.

(** X6. The key of a path does not tell a segment with a dot from two
    segments, so the stop predicate answers alike for a path ending in
    [a.b] (a component identifier, say) and for the path ending in [a], [b]:
    a path-depth override for one applies to the other. *)
Theorem shouldStopAtCurrentDepth_dotted uid currentDepth path a b :
  shouldStopAtCurrentDepth uid currentDepth (path ++ [a +:+ "." +:+ b])
  = shouldStopAtCurrentDepth uid currentDepth (path ++ [a; b]).
Proof.
  unfold shouldStopAtCurrentDepth. by rewrite getPathKey_dotted.
Qed.

(** X7. The stop predicate is monotone in the depth: once it stops a type
    on a path at some depth, it stops it at every greater depth. *)
Theorem shouldStopAtCurrentDepth_monotone uid d d' path :
  shouldStopAtCurrentDepth uid d path = true → d ≤ d' →
  shouldStopAtCurrentDepth uid d' path = true.
Proof.
  rewrite !shouldStopAtCurrentDepth_unfold. intros Hstop Hle.
  destruct (pathDepths cfg !! getPathKey path);
    [|case_bool_decide; [done|];
      destruct (includes (shallowPopulate cfg) uid);
      [|destruct (includes (mediumPopulate cfg) uid)]];
    apply Z.geb_le in Hstop; apply Z.geb_le; lia.
Qed.

(** ** More on the builder *)

(** X8. [getDeepPopulate] returns the wildcard leaf exactly when one of its
    three guards fires: the stop predicate holds, the type is revisited at
    a positive depth, or the type is unknown; in every other case it
    returns the object of the fields of the type. *)
Theorem getDeepPopulate_star_iff uid opts path :
  (getDeepPopulate uid opts path = star
   ↔ shouldStopAtCurrentDepth (Some uid) (depthOf opts) path = true
     ∨ (uid ∈ visitedOf opts ∧ 0 < depthOf opts)
     ∨ getModel uid = None)
  ∧ (getDeepPopulate uid opts path ≠ star →
     ∃ model, getModel uid = Some model
              ∧ getDeepPopulate uid opts path
                = JObj (populateAttributes uid model opts path)).
Proof.
  rewrite getDeepPopulate_unfold.
  destruct (shouldStopAtCurrentDepth _ _ _); [split; [tauto|done]|].
  destruct (bool_decide (uid ∈ visitedOf opts)) eqn:Hin; simpl.
  - apply bool_decide_eq_true in Hin.
    destruct (0 <? depthOf opts) eqn:Hdepth.
    + apply Z.ltb_lt in Hdepth. split; [tauto|done].
    + apply Z.ltb_ge in Hdepth.
      destruct (getModel uid) as [model|]; [|split; [tauto|done]].
      split; [|intros _; by exists model].
      split; [done|]. intros [?|[[_ ?]|?]]; [done|lia|done].
  - apply bool_decide_eq_false in Hin.
    destruct (getModel uid) as [model|]; [|split; [tauto|done]].
    split; [|intros _; by exists model].
    split; [done|]. intros [?|[[? _]|?]]; done.
Qed.

Lemma obj_set_fresh k v o : k ∉ obj_keys o → obj_set k v o = o ++ [(k, v)].
Proof.
  forget_parameters. unfold obj_keys.
  induction o as [|[k' v'] o IH]; simpl; [done|].
  intros [Hne Hk]%not_elem_of_cons.
  apply String.eqb_neq in Hne. by rewrite Hne, IH.
Qed.

Lemma fold_applyEntry_keys_order {X : Type} (f : string * X → option JsVal)
    (l : list (string * X)) (acc : list (string * JsVal)) :
  NoDup (obj_keys acc ++ l.*1) →
  obj_keys (fold_left (fun acc e => applyEntry e.1 (f e) acc) l acc)
  = obj_keys acc ++ (filter (λ e, is_Some (f e)) l).*1.
Proof.
  forget_parameters. revert acc.
  induction l as [|[k x] l IH]; intros acc Hnd; simpl.
  { by rewrite app_nil_r. }
  simpl in Hnd.
  assert (k ∉ obj_keys acc) as Hfresh.
  { apply NoDup_app in Hnd as (_ & Hdisjoint & _).
    intros Hk. apply (Hdisjoint k Hk). by left. }
  destruct (f (k, x)) as [v|] eqn:Hf.
  - rewrite filter_cons_True by (by rewrite Hf). simpl.
    rewrite IH.
    + rewrite obj_set_fresh by done. unfold obj_keys.
      by rewrite fmap_app, <- app_assoc.
    + rewrite obj_set_fresh by done. unfold obj_keys.
      rewrite fmap_app, <- app_assoc. done.
  - rewrite filter_cons_False by (rewrite Hf; by intros [? ?]).
    apply IH. apply NoDup_app in Hnd as (Hacc & Hdisjoint & Hl).
    apply NoDup_cons in Hl as [_ Hl]. apply NoDup_app.
    split; [done|]. split; [|done].
    intros y Hy Hin. apply (Hdisjoint y Hy). by right.
Qed.

(** X9. The keys of an expanded directive are the names of the attributes
    of the type that get an entry, in the order the schema declares them,
    each once. *)
Theorem getDeepPopulate_keys_in_order uid opts path fields :
  getDeepPopulate uid opts path = JObj fields →
  ∃ model,
    getModel uid = Some model
    ∧ obj_keys fields
      = (filter (λ entry,
                   is_Some (attributeEntry uid model opts path entry))
                (attributes model)).*1
    ∧ obj_keys fields `sublist_of` (attributes model).*1
    ∧ NoDup (obj_keys fields).
Proof.
  intros (model & Hmodel & _ & _ & ->)%getDeepPopulate_fields.
  exists model. split; [done|].
  assert (obj_keys (populateAttributes uid model opts path)
          = (filter (λ entry,
                       is_Some (attributeEntry uid model opts path entry))
                    (attributes model)).*1) as Hkeys.
  { unfold populateAttributes.
    rewrite (fold_applyEntry_keys_order
               (attributeEntry uid model opts path)); [done|].
    apply attributes_NoDup. }
  split; [done|]. rewrite Hkeys.
  assert ((filter (λ entry,
                     is_Some (attributeEntry uid model opts path entry))
                  (attributes model)).*1
          `sublist_of` (attributes model).*1) as Hsub.
  { apply fmap_sublist, sublist_filter. }
  split; [done|]. eapply sublist_NoDup; [apply attributes_NoDup|done].
Qed.

(** X10. A field listed in [excludeFields] for a type is never a key of
    the directive built for that type, whatever its kind and whatever the
    include-only table says. *)
Theorem excluded_field_never_key uid opts path fields name :
  getDeepPopulate uid opts path = JObj fields →
  isExcluded uid name = true →
  name ∉ obj_keys fields.
Proof.
  intros (model & Hmodel & _ & _ & ->)%getDeepPopulate_fields Hexcluded.
  intros (attribute & _ & Hsome)%populateAttributes_keys.
  unfold attributeEntry in Hsome. rewrite Hexcluded in Hsome.
  by destruct Hsome.
Qed.


(** X12. A relation attribute that is neither excluded nor under an
    include-only entry is a key of the directive exactly when it is not
    polymorphic, is not named like a provenance relation, is visible, and
    is in the [relationalFields] allow-list when there is one. *)
Theorem relation_key_iff uid opts path fields model name relation target :
  getModel uid = Some model →
  getDeepPopulate uid opts path = JObj fields →
  (name, Relation relation target) ∈ attributes model →
  isExcluded uid name = false →
  includeOnly path name = None →
  name ∈ obj_keys fields ↔ relationPopulated model opts name relation = true.
Proof.
  intros Hmodel (model' & Hmodel' & _ & _ & ->)%getDeepPopulate_fields.
  assert (model' = model) as -> by congruence.
  intros Hin Hexcluded Honly.
  assert (name ∈ obj_keys (populateAttributes uid model opts path)
          ↔ is_Some (attributeEntry uid model opts path
                                    (name, Relation relation target)))
    as ->.
  { rewrite <- (populateAttributes_get _ _ _ _ _ _ Hin).
    destruct (obj_get name (populateAttributes uid model opts path))
      as [v|] eqn:Hget.
    - split; [by eexists|]. intros _.
      destruct (decide (name ∈ obj_keys
                          (populateAttributes uid model opts path)))
        as [|Hnot]; [done|].
      apply obj_get_None in Hnot. congruence.
    - split; [|by intros [? ?]]. intros Hkey.
      apply obj_get_None in Hget. done. }
  unfold attributeEntry, relationPopulated. rewrite Hexcluded, Honly.
  destruct (isMorphRelation relation); cbn [negb andb orb];
    [split; [by intros [? ?]|done]|].
  destruct (_ || _)%bool; cbn [negb andb orb];
    [split; [by intros [? ?]|done]|].
  destruct (isVisibleAttribute model name); cbn [negb andb orb];
    [|split; [by intros [? ?]|done]].
  destruct (match relationalFields opts with
            | Some fs => includes fs (Some name)
            | None => true
            end); [|split; [by intros [? ?]|done]].
  split; [done|]. intros _.
  destruct (shouldStopAtCurrentDepth _ _ _); [by eexists|].
  destruct target as [t|]; [|by eexists].
  destruct (String.eqb t ""); by eexists.
Qed.


(** ** The [depthLimits] option *)

Lemma attributeEntry_depthLimits uid model opts path entry l1 l2 :
  (∀ u p l1 l2,
      getDeepPopulate u
        (withDepthLimits l1 (nestedOptions opts (visitedOf opts ∪ {[uid]}))) p
      = getDeepPopulate u
          (withDepthLimits l2 (nestedOptions opts (visitedOf opts ∪ {[uid]})))
          p) →
  attributeEntry uid model (withDepthLimits l1 opts) path entry
  = attributeEntry uid model (withDepthLimits l2 opts) path entry.
Proof.
  intros Hrec. destruct entry as [name attr]. unfold attributeEntry.
  change (visitedOf (withDepthLimits l1 opts)) with (visitedOf opts).
  change (visitedOf (withDepthLimits l2 opts)) with (visitedOf opts).
  change (depthOf (withDepthLimits l1 opts)) with (depthOf opts).
  change (depthOf (withDepthLimits l2 opts)) with (depthOf opts).
  change (relationalFields (withDepthLimits l1 opts))
    with (relationalFields opts).
  change (relationalFields (withDepthLimits l2 opts))
    with (relationalFields opts).
  assert (∀ l nv, nestedOptions (withDepthLimits l opts) nv
                  = withDepthLimits l (nestedOptions opts nv))
    as Hnested by done.
  rewrite !Hnested.
  destruct (isExcluded uid name); [done|].
  destruct (includeOnly path name); [done|].
  destruct attr as [relation [t|]| |c|cs|ty]; try done.
  - by rewrite (Hrec t _ l1 l2).
  - by rewrite (Hrec c _ l1 l2).
  - do 2 f_equal. unfold variantsOf. rewrite !Hnested.
    generalize (@nil (string * JsVal)).
    induction (default [] cs) as [|c' cs' IH]; intros acc; simpl; [done|].
    rewrite IH. by rewrite (Hrec c' _ l1 l2).
Qed.

(** X13. The [depthLimits] option ("specific depth limits for certain UIDs
    or paths") is never consulted: whatever table is passed, or none,
    [getDeepPopulate] returns the same directive. *)
Theorem getDeepPopulate_depthLimits_irrelevant uid opts path l1 l2 :
  getDeepPopulate uid (withDepthLimits l1 opts) path
  = getDeepPopulate uid (withDepthLimits l2 opts) path.
Proof.
  revert l1 l2. pattern uid, opts, path.
  apply getDeepPopulate_calls_ind. clear uid opts path.
  intros uid opts path IH l1 l2. rewrite !getDeepPopulate_unfold.
  change (visitedOf (withDepthLimits l1 opts)) with (visitedOf opts).
  change (visitedOf (withDepthLimits l2 opts)) with (visitedOf opts).
  change (depthOf (withDepthLimits l1 opts)) with (depthOf opts).
  change (depthOf (withDepthLimits l2 opts)) with (depthOf opts).
  destruct (shouldStopAtCurrentDepth _ _ _); [done|].
  destruct (_ && _)%bool eqn:Hrevisit; [done|].
  destruct (getModel uid) as [model|] eqn:Hmodel; [|done].
  f_equal. unfold populateAttributes.
  generalize (@nil (string * JsVal)).
  induction (attributes model) as [|entry l IHl]; intros acc; simpl; [done|].
  rewrite IHl. do 2 f_equal. apply attributeEntry_depthLimits.
  intros u p l1' l2'. by eapply IH.
Qed.

(** ** Polymorphic relation kinds *)



End Resolver.

(** ** Paths and inherited names *)

Lemma objectPrototype_no_dot key :
  key ∈ objectPrototype → strIncludes "." key = false.
Proof.
  intros Hin.
  assert (forallb (λ k, negb (strIncludes "." k)) objectPrototype = true)
    as Hall by (vm_compute; reflexivity).
  rewrite forallb_forall in Hall. apply list_elem_of_In in Hin.
  apply Hall in Hin. by apply negb_true_iff.
Qed.

Lemma getPathKey_long a b path :
  getPathKey (a :: b :: path) ∉ objectPrototype.
Proof.
  intros Hin%objectPrototype_no_dot.
  change (getPathKey (a :: b :: path))
    with (a +:+ "." +:+ getPathKey (b :: path)) in Hin.
  by rewrite strIncludes_app in Hin.
Qed.

(** The paths with an inherited key are the one-segment paths that name a
    member of [Object.prototype]. *)
Lemma namesInheritedMember_spec path :
  namesInheritedMember path = true ↔ getPathKey path ∈ objectPrototype.
Proof.
  destruct path as [|a [|b path]].
  - split; [done|]. intros Hin%objectPrototype_spec. discriminate Hin.
  - apply objectPrototype_spec.
  - split; [done|]. intros Hin. by apply getPathKey_long in Hin.
Qed.

Lemma namesInheritedMember_app path name :
  path ≠ [] → namesInheritedMember (path ++ [name]) = false.
Proof. by destruct path as [|a [|b path]]. Qed.

Lemma namesInheritedMember_app2 path a b :
  namesInheritedMember (path ++ [a; b]) = false.
Proof. by destruct path as [|x [|y path]]. Qed.

(** ** Membership in object literals *)

Lemma obj_get_elem_of k v o : obj_get k o = Some v → (k, v) ∈ o.
Proof.
  induction o as [|[k' v'] o IH]; simpl; [done|].
  destruct (String.eqb k k') eqn:Hk.
  - apply String.eqb_eq in Hk as ->. intros [= ->]. by left.
  - intros Hget. right. by apply IH.
Qed.

Lemma obj_get_of_elem k v o :
  NoDup (obj_keys o) → (k, v) ∈ o → obj_get k o = Some v.
Proof.
  unfold obj_keys. induction o as [|[k' v'] o IH]; simpl.
  { intros _ Hin. by apply elem_of_nil in Hin. }
  intros [Hk' Hnd]%NoDup_cons [[= -> ->]|Hin]%elem_of_cons.
  - by rewrite String.eqb_refl.
  - destruct (String.eqb k k') eqn:Hk; [|by apply IH].
    apply String.eqb_eq in Hk as ->. exfalso. apply Hk'.
    apply list_elem_of_fmap. by exists (k', v).
Qed.

Lemma fold_applyEntry_NoDup {X : Type} (f : string * X → option JsVal)
    (l : list (string * X)) (acc : list (string * JsVal)) :
  NoDup (obj_keys acc) →
  NoDup (obj_keys (fold_left (fun acc e => applyEntry e.1 (f e) acc) l acc)).
Proof.
  revert acc. induction l as [|e l IH]; intros acc Hnd; simpl; [done|].
  apply IH. unfold applyEntry. destruct (f e); [|done].
  by apply obj_keys_set_NoDup.
Qed.

Lemma populateAttributes_NoDup cfg models isVisibleAttribute
    CREATED_BY_ATTRIBUTE UPDATED_BY_ATTRIBUTE uid model opts path :
  NoDup (obj_keys (populateAttributes cfg models isVisibleAttribute
                     CREATED_BY_ATTRIBUTE UPDATED_BY_ATTRIBUTE
                     uid model opts path)).
Proof.
  unfold populateAttributes. apply fold_applyEntry_NoDup. apply NoDup_nil_2.
Qed.

(** ** The program as shipped: [DEPTH_CONFIG] *)

Section Shipped.

Variable models : gmap string Model.
Variable isVisibleAttribute : Model → string → bool.
Variables CREATED_BY_ATTRIBUTE UPDATED_BY_ATTRIBUTE : string.

Local Abbreviation build :=
  (getDeepPopulate DEPTH_CONFIG models isVisibleAttribute
                   CREATED_BY_ATTRIBUTE UPDATED_BY_ATTRIBUTE).
Local Abbreviation entryOf :=
  (attributeEntry DEPTH_CONFIG models isVisibleAttribute
                  CREATED_BY_ATTRIBUTE UPDATED_BY_ATTRIBUTE).
Local Abbreviation fieldsOf :=
  (populateAttributes DEPTH_CONFIG models isVisibleAttribute
                      CREATED_BY_ATTRIBUTE UPDATED_BY_ATTRIBUTE).

Lemma shipped_isExcluded uid name : isExcluded DEPTH_CONFIG uid name = false.
Proof. unfold isExcluded. simpl. by rewrite lookup_empty. Qed.

Lemma shipped_includeOnly path name :
  includeOnly DEPTH_CONFIG path name = None.
Proof.
  unfold includeOnly. destruct (contextKey path name); [|done].
  simpl. by rewrite lookup_empty.
Qed.

Lemma shipped_stop uid d path :
  shouldStopAtCurrentDepth DEPTH_CONFIG uid d path
  = if namesInheritedMember path then false
    else if includes (shallowPopulate DEPTH_CONFIG) uid then d >=? 1
    else d >=? 3.
Proof.
  rewrite shouldStopAtCurrentDepth_unfold. simpl pathDepths.
  rewrite lookup_empty.
  destruct (namesInheritedMember path) eqn:Hpath.
  - apply namesInheritedMember_spec in Hpath.
    by rewrite bool_decide_eq_true_2.
  - rewrite bool_decide_eq_false_2.
    + destruct (includes (shallowPopulate DEPTH_CONFIG) uid); [done|].
      by destruct uid.
    + intros Hin%namesInheritedMember_spec. congruence.
Qed.

Lemma shipped_shallow_stops uid currentDepth path :
  uid ∈ shallowPopulate DEPTH_CONFIG → 1 ≤ currentDepth →
  namesInheritedMember path = false →
  shouldStopAtCurrentDepth DEPTH_CONFIG (Some uid) currentDepth path = true.
Proof.
  intros Hshallow Hdepth Hpath. rewrite shipped_stop, Hpath.
  apply includes_Some in Hshallow. rewrite Hshallow. by apply Z.geb_le.
Qed.

Lemma shipped_root_not_stopped uid d path :
  d ≤ 0 → shouldStopAtCurrentDepth DEPTH_CONFIG uid d path = false.
Proof.
  intros Hdepth. rewrite shipped_stop.
  destruct (namesInheritedMember path); [done|].
  destruct (includes (shallowPopulate DEPTH_CONFIG) uid);
    rewrite Z.geb_leb; apply Z.leb_gt; lia.
Qed.

Lemma shipped_deep_not_stopped t d path :
  t ∉ shallowPopulate DEPTH_CONFIG → d < 3 →
  shouldStopAtCurrentDepth DEPTH_CONFIG (Some t) d path = false.
Proof.
  intros Hshallow Hdepth. rewrite shipped_stop.
  destruct (namesInheritedMember path); [done|].
  apply includes_Some_false in Hshallow. rewrite Hshallow.
  rewrite Z.geb_leb. apply Z.leb_gt. lia.
Qed.

(** The wrapping of a nested directive, written out. *)
Lemma wrapPopulate_spelled nested :
  wrapPopulate nested
  = JObj [("populate",
           match nested with
           | JObj (field :: rest) => JObj (field :: rest)
           | _ => JStr "*"
           end)].
Proof. by destruct nested as [| |[|field rest]]. Qed.

(** ** The shallow set *)

(** C4, as the code has it. A type of the shallow set reached at depth 1
    or deeper yields the wildcard leaf, so every relation field whose
    target is in the shallow set is [{ populate: '*' }] with no nested
    keys, whatever type carries the field; both on every path but the
    one-segment paths that name a member of [Object.prototype], about which
    nothing is said. A type of the shallow set used as the root, at depth
    0, is expanded like any other type: it yields the object of its fields,
    and a populated relation to a type outside the shallow set carries the
    directive of that type, built one level deeper. *)
Theorem shallow_target_is_flat uid opts path :
  uid ∈ shallowPopulate DEPTH_CONFIG →
  (1 ≤ depthOf opts → namesInheritedMember path = false →
   getDeepPopulate DEPTH_CONFIG models isVisibleAttribute
                   CREATED_BY_ATTRIBUTE UPDATED_BY_ATTRIBUTE uid opts path
   = JStr "*")
  ∧ (0 ≤ depthOf opts →
     ∀ parent model fields name relation v,
       getModel models parent = Some model →
       build parent opts path = JObj fields →
       (name, Relation relation (Some uid)) ∈ attributes model →
       namesInheritedMember (path ++ [name]) = false →
       obj_get name fields = Some v →
       v = JObj [("populate", JStr "*")])
  ∧ (depthOf opts ≤ 0 →
     ∀ model,
       getModel models uid = Some model →
       ∃ fields,
         build uid opts path = JObj fields
         ∧ ∀ name relation target,
             (name, Relation relation (Some target)) ∈ attributes model →
             relationPopulated isVisibleAttribute CREATED_BY_ATTRIBUTE
                               UPDATED_BY_ATTRIBUTE model opts name relation
               = true →
             target ∉ shallowPopulate DEPTH_CONFIG →
             target ≠ "" →
             obj_get name fields
             = Some (JObj
                       [("populate",
                         match
                           build target
                             (nestedOptions opts (visitedOf opts ∪ {[uid]}))
                             (path ++ [name])
                         with
                         | JObj (field :: rest) => JObj (field :: rest)
                         | _ => JStr "*"
                         end)])).
Proof.
  intros Hshallow. split; [|split].
  - intros Hdepth Hpath. rewrite getDeepPopulate_unfold.
    rewrite shipped_shallow_stops; [reflexivity|assumption..].
  - intros Hdepth parent model fields name relation v Hmodel Hbuild Hin Hpath.
    apply getDeepPopulate_fields in Hbuild
      as (model' & Hmodel' & _ & _ & ->).
    assert (model' = model) as -> by congruence.
    rewrite (populateAttributes_get _ _ _ _ _ _ _ _ _ _ _ Hin).
    apply attributeEntry_shallow_target; [apply shipped_includeOnly|].
    apply shipped_shallow_stops; [done|lia|done].
  - intros Hdepth model Hmodel.
    exists (fieldsOf uid model opts path). split.
    { apply getDeepPopulate_expands; [|..|done].
      + by apply shipped_root_not_stopped.
      + apply andb_false_iff. right. apply Z.ltb_ge. lia. }
    intros name relation target Hin Hpopulated Hdeep Htarget.
    rewrite (populateAttributes_get _ _ _ _ _ _ _ _ _ _ _ Hin).
    unfold attributeEntry. rewrite shipped_isExcluded, shipped_includeOnly.
    unfold relationPopulated in Hpopulated.
    apply andb_true_iff in Hpopulated as [Hpopulated Hallowed].
    apply andb_true_iff in Hpopulated as [Hpopulated Hvisible].
    apply andb_true_iff in Hpopulated as [Hmorph Hprovenance].
    apply negb_true_iff in Hmorph, Hprovenance.
    rewrite Hmorph, Hprovenance, Hvisible, Hallowed. cbn [andb].
    rewrite shipped_deep_not_stopped by (done || lia).
    apply String.eqb_neq in Htarget. rewrite Htarget.
    by rewrite wrapPopulate_spelled.
Qed.

(** ** Dynamic zones *)

(** C5. In an expanded type every dynamic-zone attribute becomes a field
    [{ on: variants }]; [variants] has exactly one key per allowed
    component, and the entry of a component is [{ populate: nested }],
    where [nested] is the result of the component's own call of
    [getDeepPopulate], one level deeper, with the current type added to the
    visited set and on the path extended by the attribute name and the
    component identifier, or ['*'] when that result is not an object with
    keys. Each variant has the depth cap applied to its own call: two
    levels down or deeper every variant is the wildcard. *)
Theorem dynamiczone_on_variants uid opts path model name components :
  shouldStopAtCurrentDepth DEPTH_CONFIG (Some uid) (depthOf opts) path
    = false →
  (bool_decide (uid ∈ visitedOf opts) && (0 <? depthOf opts))%bool = false →
  getModel models uid = Some model →
  (name, DynamicZone components) ∈ attributes model →
  ∃ fields variants,
    getDeepPopulate DEPTH_CONFIG models isVisibleAttribute
                    CREATED_BY_ATTRIBUTE UPDATED_BY_ATTRIBUTE uid opts path
    = JObj fields
    ∧ NoDup fields.*1
    ∧ (name, JObj [("on", JObj variants)]) ∈ fields
    ∧ NoDup variants.*1
    ∧ (∀ componentUID,
          componentUID ∈ variants.*1
          ↔ componentUID ∈ default [] components)
    ∧ (∀ componentUID,
          componentUID ∈ default [] components →
          (componentUID,
           JObj [("populate",
                  match
                    getDeepPopulate DEPTH_CONFIG models isVisibleAttribute
                      CREATED_BY_ATTRIBUTE UPDATED_BY_ATTRIBUTE
                      componentUID
                      {| relationalFields := relationalFields opts;
                         maxDepth := Some (default 3 (maxDepth opts));
                         currentDepth :=
                           Some (default 0 (currentDepth opts) + 1);
                         visitedUIDs :=
                           Some (default ∅ (visitedUIDs opts) ∪ {[uid]});
                         depthLimits := depthLimits opts |}
                      (path ++ [name; componentUID])
                  with
                  | JObj (field :: rest) => JObj (field :: rest)
                  | _ => JStr "*"
                  end)])
          ∈ variants)
    ∧ (2 ≤ default 0 (currentDepth opts) →
       ∀ componentUID,
         componentUID ∈ default [] components →
         (componentUID, JObj [("populate", JStr "*")]) ∈ variants).
Proof.
  intros Hstop Hrevisit Hmodel Hin.
  exists (fieldsOf uid model opts path),
         (variantsOf DEPTH_CONFIG models isVisibleAttribute
                     CREATED_BY_ATTRIBUTE UPDATED_BY_ATTRIBUTE
                     opts (visitedOf opts ∪ {[uid]}) (path ++ [name])
                     components).
  assert (∀ c, c ∈ default [] components →
               obj_get c
                 (variantsOf DEPTH_CONFIG models isVisibleAttribute
                    CREATED_BY_ATTRIBUTE UPDATED_BY_ATTRIBUTE
                    opts (visitedOf opts ∪ {[uid]}) (path ++ [name])
                    components)
               = Some (wrapPopulate
                         (build c
                            (nestedOptions opts (visitedOf opts ∪ {[uid]}))
                            (path ++ [name; c])))) as Hvariant.
  { intros c Hc. rewrite variantsOf_get, bool_decide_eq_true_2 by done.
    by rewrite <- app_assoc. }
  split; [by apply getDeepPopulate_expands|].
  split; [apply populateAttributes_NoDup|]. split.
  { apply obj_get_elem_of.
    rewrite (populateAttributes_get _ _ _ _ _ _ _ _ _ _ _ Hin).
    apply attributeEntry_dynamiczone;
      [apply shipped_isExcluded|apply shipped_includeOnly]. }
  split; [apply variantsOf_NoDup|]. split; [apply variantsOf_keys|].
  split.
  - intros c Hc. apply obj_get_elem_of. rewrite (Hvariant c Hc).
    by rewrite wrapPopulate_spelled.
  - intros Hdepth c Hc. apply obj_get_elem_of. rewrite (Hvariant c Hc).
    rewrite getDeepPopulate_unfold.
    assert (shouldStopAtCurrentDepth DEPTH_CONFIG (Some c)
              (depthOf (nestedOptions opts (visitedOf opts ∪ {[uid]})))
              (path ++ [name; c]) = true) as ->; [|done].
    rewrite shipped_stop, namesInheritedMember_app2.
    change (depthOf (nestedOptions opts (visitedOf opts ∪ {[uid]})))
      with (default 0 (currentDepth opts) + 1).
    destruct (includes (shallowPopulate DEPTH_CONFIG) (Some c));
      apply Z.geb_le; lia.
Qed.

(** ** Polymorphic and provenance relations *)

(** C6. At every level of every directive, the object built for a type
    has no key for a polymorphic relation of that type, nor for its
    created-by and updated-by relations. *)
Theorem never_populated_relations_omitted uid opts path :
  omitsNeverPopulated models CREATED_BY_ATTRIBUTE UPDATED_BY_ATTRIBUTE
                      uid (build uid opts path).
Proof. apply getDeepPopulate_omits. apply shipped_includeOnly. Qed.

(** ** More on the shipped configuration *)

Lemma shipped_not_stopped uid d path :
  namesInheritedMember path = false →
  shouldStopAtCurrentDepth DEPTH_CONFIG uid d path = false → d < 3.
Proof.
  intros Hpath. rewrite shipped_stop, Hpath.
  destruct (includes (shallowPopulate DEPTH_CONFIG) uid);
    intros Hge; rewrite Z.geb_leb in Hge; apply Z.leb_gt in Hge; lia.
Qed.

(** The condition on paths under which the cap at depth 3 is reached: from
    depth 2 on the path is not empty, and from depth 3 on it does not name
    an inherited member. It passes from a call to the calls nested in it. *)
Lemma backed_by_path_nested d path name :
  (2 ≤ d → path ≠ []) →
  (2 ≤ d + 1 → path ++ [name] ≠ [])
  ∧ (3 ≤ d + 1 → namesInheritedMember (path ++ [name]) = false).
Proof.
  intros Hpath. split; [intros _; by destruct path|].
  intros Hdepth. apply namesInheritedMember_app. apply Hpath. lia.
Qed.

(** X15. Under the shipped configuration a directive never nests more
    levels of fields than there are depths left below 3: the directive of a
    call at depth [d] has at most [3 - d] levels, provided the path is not
    empty from depth 2 on and is not a single segment naming a member of
    [Object.prototype] from depth 3 on. The root call made for a request
    is at depth 0, so the directive built for a request has at most three
    levels. *)
Theorem directive_at_most_three_levels uid opts path :
  (2 ≤ depthOf opts → path ≠ []) →
  (3 ≤ depthOf opts → namesInheritedMember path = false) →
  atMostLevels (Z.to_nat (3 - depthOf opts))
    (getDeepPopulate DEPTH_CONFIG models isVisibleAttribute
                     CREATED_BY_ATTRIBUTE UPDATED_BY_ATTRIBUTE uid opts path)
  ∧ atMostLevels 3
      (getDeepPopulate DEPTH_CONFIG models isVisibleAttribute
                       CREATED_BY_ATTRIBUTE UPDATED_BY_ATTRIBUTE
                       uid noOptions []).
Proof.
  assert (∀ uid opts path,
             (2 ≤ depthOf opts → path ≠ []) →
             (3 ≤ depthOf opts → namesInheritedMember path = false) →
             atMostLevels (Z.to_nat (3 - depthOf opts)) (build uid opts path))
    as Hlevels.
  2:{ intros Hnonempty Hpath. split; [by apply Hlevels|].
      apply (Hlevels uid noOptions []); unfold depthOf; simpl; lia. }
  clear uid opts path. intros uid opts path. pattern uid, opts, path.
  apply (getDeepPopulate_calls_ind models). clear uid opts path.
  intros uid opts path IH Hnonempty Hpath. rewrite getDeepPopulate_unfold.
  destruct (shouldStopAtCurrentDepth _ _ _) eqn:Hstop; [constructor|].
  destruct (_ && _)%bool eqn:Hrevisit; [constructor|].
  destruct (getModel models uid) as [model|] eqn:Hmodel; [|constructor].
  assert (depthOf opts < 3) as Hdepth.
  { destruct (Z.lt_ge_cases (depthOf opts) 3) as [|Hge]; [done|].
    apply (shipped_not_stopped (Some uid) _ path); [by apply Hpath|done]. }
  assert (Z.to_nat (3 - depthOf opts)
          = S (Z.to_nat (3 - (depthOf opts + 1)))) as -> by lia.
  assert (∀ u name,
             atMostLevels (Z.to_nat (3 - (depthOf opts + 1)))
               (build u (nestedOptions opts (visitedOf opts ∪ {[uid]}))
                      (path ++ [name]))) as Hnested.
  { intros u name. apply (IH model); [done|done|..];
      apply (backed_by_path_nested (depthOf opts) path name Hnonempty). }
  assert (∀ u name c,
             atMostLevels (Z.to_nat (3 - (depthOf opts + 1)))
               (build u (nestedOptions opts (visitedOf opts ∪ {[uid]}))
                      ((path ++ [name]) ++ [c]))) as Hvariants.
  { intros u name c. apply (IH model); [done|done|..].
    - intros _. by destruct path.
    - intros _. rewrite <- app_assoc. apply namesInheritedMember_app2. }
  assert (∀ nested,
             atMostLevels (Z.to_nat (3 - (depthOf opts + 1))) nested →
             fieldAtMostLevels (Z.to_nat (3 - (depthOf opts + 1)))
                               (wrapPopulate nested)) as Hwrapped.
  { intros nested Hlevel.
    destruct (wrapPopulate_cases nested) as [-> | ->];
      constructor; [done|constructor]. }
  assert (fieldAtMostLevels (Z.to_nat (3 - (depthOf opts + 1)))
                            (populateOf star)) as Hflat
    by (constructor; constructor).
  apply levels_fields. intros name v Helem.
  assert (obj_get name (fieldsOf uid model opts path) = Some v) as Hget
    by (apply obj_get_of_elem; [apply populateAttributes_NoDup|done]).
  assert (name ∈ obj_keys (fieldsOf uid model opts path)) as Hkey.
  { apply list_elem_of_fmap. by exists (name, v). }
  apply populateAttributes_keys in Hkey as (attribute & Hin & _).
  rewrite (populateAttributes_get _ _ _ _ _ _ _ _ _ _ _ Hin) in Hget.
  revert Hget. unfold attributeEntry.
  rewrite shipped_isExcluded, shipped_includeOnly.
  destruct attribute as [relation [t|]| |c|cs|ty]; try done;
    repeat (match goal with
            | |- None = Some _ → _ => done
            | |- Some (populateOf star) = Some _ → _ =>
                intros [= <-]; apply Hflat
            | |- Some (wrapPopulate _) = Some _ → _ =>
                intros [= <-]; apply Hwrapped, Hnested
            | |- (if ?b then _ else _) = _ → _ => destruct b
            end).
  intros [= <-]. apply levels_on. intros c v' Hc.
  assert (obj_get c
            (variantsOf DEPTH_CONFIG models isVisibleAttribute
               CREATED_BY_ATTRIBUTE UPDATED_BY_ATTRIBUTE opts
               (visitedOf opts ∪ {[uid]}) (path ++ [name]) cs)
          = Some v') as Hgetc
    by (apply obj_get_of_elem; [apply variantsOf_NoDup|done]).
  revert Hgetc. rewrite variantsOf_get.
  destruct (bool_decide (c ∈ default [] cs)); [|done]. intros [= <-].
  destruct (wrapPopulate_cases
              (build c (nestedOptions opts (visitedOf opts ∪ {[uid]}))
                     ((path ++ [name]) ++ [c]))) as [-> | ->].
  - eexists. split; [done|]. apply Hvariants.
  - exists star. split; [done|]. constructor.
Qed.


Lemma shipped_stop_path uid d p1 p2 :
  namesInheritedMember p1 = namesInheritedMember p2 →
  shouldStopAtCurrentDepth DEPTH_CONFIG uid d p1
  = shouldStopAtCurrentDepth DEPTH_CONFIG uid d p2.
Proof. intros Hpaths. by rewrite !shipped_stop, Hpaths. Qed.

Lemma shipped_attributeEntry_path uid model opts p1 p2 entry :
  p1 ≠ [] → p2 ≠ [] →
  (∀ u q1 q2,
      q1 ≠ [] → q2 ≠ [] →
      namesInheritedMember q1 = namesInheritedMember q2 →
      build u (nestedOptions opts (visitedOf opts ∪ {[uid]})) q1
      = build u (nestedOptions opts (visitedOf opts ∪ {[uid]})) q2) →
  entryOf uid model opts p1 entry = entryOf uid model opts p2 entry.
Proof.
  intros Hp1 Hp2 Hrec. destruct entry as [name attr]. unfold attributeEntry.
  rewrite !shipped_isExcluded, !shipped_includeOnly.
  assert (∀ u, build u (nestedOptions opts (visitedOf opts ∪ {[uid]}))
                     (p1 ++ [name])
               = build u (nestedOptions opts (visitedOf opts ∪ {[uid]}))
                       (p2 ++ [name])) as Hnested.
  { intros u. apply Hrec; [by destruct p1|by destruct p2|].
    by rewrite !namesInheritedMember_app. }
  destruct attr as [relation [t|]| |c|cs|ty]; try done.
  - rewrite (shipped_stop_path _ _ (p1 ++ [name]) (p2 ++ [name]))
      by (by rewrite !namesInheritedMember_app).
    by rewrite Hnested.
  - rewrite (shipped_stop_path _ _ (p1 ++ [name]) (p2 ++ [name]))
      by (by rewrite !namesInheritedMember_app).
    done.
  - by rewrite Hnested.
  - do 2 f_equal. unfold variantsOf.
    generalize (@nil (string * JsVal)).
    induction (default [] cs) as [|c' cs' IH]; intros acc; simpl; [done|].
    rewrite IH.
    rewrite (Hrec c' ((p1 ++ [name]) ++ [c']) ((p2 ++ [name]) ++ [c']));
      [done|by destruct p1|by destruct p2|].
    rewrite <- !app_assoc. cbn [app].
    by rewrite !namesInheritedMember_app2.
Qed.

(** X17. Under the shipped configuration, whose path-depth and include-only
    tables are empty, the path matters only through two things: whether it
    is empty, and whether it is a single segment that names a member of
    [Object.prototype]. [getDeepPopulate] returns the same directive for a
    type and options on any two paths that agree on both. *)
Theorem shipped_path_irrelevant uid opts p1 p2 :
  (p1 = [] ↔ p2 = []) →
  namesInheritedMember p1 = namesInheritedMember p2 →
  getDeepPopulate DEPTH_CONFIG models isVisibleAttribute
                  CREATED_BY_ATTRIBUTE UPDATED_BY_ATTRIBUTE uid opts p1
  = getDeepPopulate DEPTH_CONFIG models isVisibleAttribute
                    CREATED_BY_ATTRIBUTE UPDATED_BY_ATTRIBUTE uid opts p2.
Proof.
  intros Hempty Hpaths.
  destruct p1 as [|s1 p1].
  { by rewrite (proj1 Hempty eq_refl). }
  destruct p2 as [|s2 p2].
  { by discriminate (proj2 Hempty eq_refl). }
  clear Hempty.
  assert (s1 :: p1 ≠ []) as Hp1 by done.
  assert (s2 :: p2 ≠ []) as Hp2 by done.
  revert Hp1 Hp2 Hpaths.
  generalize (s1 :: p1) as q1, (s2 :: p2) as q2. clear s1 p1 s2 p2.
  intros q1 q2. revert q2. pattern uid, opts, q1.
  apply (getDeepPopulate_calls_ind models). clear uid opts q1.
  intros uid opts p1 IH p2 Hp1 Hp2 Hpaths. rewrite !getDeepPopulate_unfold.
  rewrite (shipped_stop_path _ _ p1 p2) by done.
  destruct (shouldStopAtCurrentDepth _ _ _); [done|].
  destruct (_ && _)%bool eqn:Hrevisit; [done|].
  destruct (getModel models uid) as [model|] eqn:Hmodel; [|done].
  f_equal. unfold populateAttributes.
  generalize (@nil (string * JsVal)).
  induction (attributes model) as [|entry l IHl]; intros acc; simpl; [done|].
  rewrite IHl. do 2 f_equal. apply shipped_attributeEntry_path; [done..|].
  intros u q1 q2 Hq1 Hq2 Hq. by apply (IH model).
Qed.



End Shipped.

(** ** The stop predicate against its precedence table *)

(** C3, and where the code departs from it. The code stops only where the
    first-match precedence says so: an exact path-depth override decides
    alone ([currentDepth >= override]); without one a type of the shallow
    set stops from depth 1, otherwise a type of the medium set stops from
    depth 2, otherwise every type stops from depth 3. It stops wherever the
    precedence says so on every path that has an override or whose key is
    not the name of a member of [Object.prototype]. On a path without an
    override whose key is such a name, the test for an override succeeds on
    the inherited member and the code stops at no depth: with the shipped
    table, [api::user.user] at depth 1 on the path [constructor] is not
    stopped, although it is in the shallow set and the path has no
    override. *)
Theorem shouldStopAtCurrentDepth_precedence cfg uid currentDepth path :
  (shouldStopAtCurrentDepth cfg (Some uid) currentDepth path = true →
   StopRule cfg uid currentDepth path)
  ∧ (is_Some (pathDepths cfg !! String.concat "." path)
     ∨ String.concat "." path ∉ objectPrototype →
     StopRule cfg uid currentDepth path →
     shouldStopAtCurrentDepth cfg (Some uid) currentDepth path = true)
  ∧ (pathDepths cfg !! String.concat "." path = None →
     String.concat "." path ∈ objectPrototype →
     shouldStopAtCurrentDepth cfg (Some uid) currentDepth path = false)
  ∧ (StopRule DEPTH_CONFIG "api::user.user" 1 ["constructor"]
     ∧ shouldStopAtCurrentDepth DEPTH_CONFIG (Some "api::user.user") 1
                                ["constructor"]
       = false).
Proof.
  split; [apply StopRule_sound|]. split; [apply StopRule_complete|].
  split; [apply shouldStopAtCurrentDepth_inherited|]. split; [|reflexivity].
  apply stop_shallow; [reflexivity|by left|lia].
Qed.

(** ** The example registry, evaluated *)

Example article_directive :
  getDeepPopulate DEPTH_CONFIG exampleModels exampleVisible
                  "createdBy" "updatedBy" "api::article.article" noOptions []
  = JObj
      [("cover", populateOf star);
       ("related", populateOf star);
       ("author", populateOf star);
       ("category", populateOf (JObj [("articles", populateOf star)]));
       ("blocks",
        onVariants
          [("dynamic-zone.hero", populateOf (JObj [("ctas", populateOf star)]));
           ("dynamic-zone.cta",
            populateOf (JObj [("ctas", populateOf star)]))])].
Proof. vm_compute. reflexivity. Qed.

Example role_directive :
  getDeepPopulate DEPTH_CONFIG exampleModels exampleVisible
                  "createdBy" "updatedBy" "api::role.role" noOptions []
  = JObj
      [("users", populateOf star);
       ("articles",
        populateOf
          (JObj
             [("cover", populateOf star);
              ("related", populateOf star);
              ("author", populateOf star);
              ("category", populateOf (JObj [("articles", populateOf star)]));
              ("blocks",
               onVariants
                 [("dynamic-zone.hero",
                   populateOf (JObj [("ctas", populateOf star)]));
                  ("dynamic-zone.cta",
                   populateOf (JObj [("ctas", populateOf star)]))])]))].
Proof. vm_compute. reflexivity. Qed.

(** A relation named like a member of [Object.prototype] escapes the cap
    of the shallow set: [constructor] and [owner] both point to the user
    type, and only [owner] is cut at depth 1. *)
Example profile_directive :
  getDeepPopulate DEPTH_CONFIG profileModels exampleVisible
                  "createdBy" "updatedBy" "api::profile.profile" noOptions []
  = JObj
      [("constructor", populateOf (JObj [("role", populateOf star)]));
       ("owner", populateOf star)].
Proof. vm_compute. reflexivity. Qed.

Example inherited_path_examples :
  shouldStopAtCurrentDepth DEPTH_CONFIG (Some "api::article.article") 7
                           ["toString"] = false
  ∧ shouldStopAtCurrentDepth DEPTH_CONFIG (Some "api::article.article") 7
                             ["title"] = true
  ∧ shouldStopAtCurrentDepth DEPTH_CONFIG (Some "api::article.article") 7
                             ["related"; "toString"] = true
  ∧ shouldStopAtCurrentDepth DEPTH_CONFIG (Some "api::article.article") 7
                             [] = true
  ∧ lookupProperty ({["valueOf" := 2]} : gmap string Z) "valueOf"
    = OwnNumber 2
  ∧ lookupProperty (∅ : gmap string Z) "valueOf" = Inherited
  ∧ lookupProperty (∅ : gmap string Z) "author.role" = Undefined.
Proof. repeat split. Qed.

Example shouldStopAtCurrentDepth_examples :
  shouldStopAtCurrentDepth exampleConfig (Some "api::user.user") 1
                           ["author"; "role"] = false
  ∧ shouldStopAtCurrentDepth exampleConfig (Some "api::article.article") 5
                             ["author"; "role"] = true
  ∧ shouldStopAtCurrentDepth exampleConfig (Some "api::user.user") 1
                             ["author"] = true
  ∧ shouldStopAtCurrentDepth exampleConfig (Some "api::user.user") 0 []
    = false
  ∧ shouldStopAtCurrentDepth exampleConfig (Some "api::category.category") 1
                             ["category"] = false
  ∧ shouldStopAtCurrentDepth exampleConfig (Some "api::category.category") 2
                             ["category"] = true
  ∧ shouldStopAtCurrentDepth exampleConfig (Some "api::article.article") 2
                             ["related"] = false
  ∧ shouldStopAtCurrentDepth exampleConfig (Some "api::article.article") 3
                             ["related"] = true.
Proof. repeat split. Qed.

Example maxDepth_examples :
  getDeepPopulate DEPTH_CONFIG exampleModels exampleVisible
                  "createdBy" "updatedBy" "api::category.category"
                  (withMaxDepth (Some 0) noOptions) []
  = JObj [("articles",
           populateOf
             (JObj
                [("cover", populateOf star);
                 ("related", populateOf star);
                 ("author", populateOf star);
                 ("category", populateOf star);
                 ("blocks",
                  onVariants
                    [("dynamic-zone.hero",
                      populateOf (JObj [("ctas", populateOf star)]));
                     ("dynamic-zone.cta",
                      populateOf (JObj [("ctas", populateOf star)]))])]))]
  ∧ getDeepPopulate DEPTH_CONFIG exampleModels exampleVisible
                    "createdBy" "updatedBy" "api::category.category"
                    (withMaxDepth (Some 100) noOptions) []
    = getDeepPopulate DEPTH_CONFIG exampleModels exampleVisible
                      "createdBy" "updatedBy" "api::category.category"
                      (withMaxDepth (Some 0) noOptions) [].
Proof. split; vm_compute; reflexivity. Qed.

Example extractPathSegment_examples :
  extractPathSegment "/api/articles?sort=title" = "articles"
  ∧ extractPathSegment "/api/articles/" = "articles"
  ∧ extractPathSegment "/api/articles/12" = "articles"
  ∧ extractPathSegment "/api/articles/znrlzntu9ei5onjvwfaalu2v" = ""
  ∧ extractPathSegment "/api/" = ""
  ∧ extractPathSegment "/uploads/a.png" = "".
Proof. repeat split. Qed.

(** ** Instances of the theorems on the example registry *)

Lemma getDeepPopulate_terminates_witness :
  getDeepPopulate_fuel DEPTH_CONFIG exampleModels exampleVisible
                       "createdBy" "updatedBy" 9 "api::article.article"
                       noOptions []
  = Some (getDeepPopulate DEPTH_CONFIG exampleModels exampleVisible
                          "createdBy" "updatedBy" "api::article.article"
                          noOptions []).
Proof.
  apply (proj1 (getDeepPopulate_terminates
                  DEPTH_CONFIG exampleModels exampleVisible
                  "createdBy" "updatedBy" "api::article.article"
                  noOptions [])).
  vm_compute. lia.
Defined.

(** C1 as stated fails in its last part: while an article is expanded, the
    call made for the button component of a hero block returns [{}]
    without any recursive call, and none of the three guards fires. *)
Lemma branch_ends_without_guard :
  getDeepPopulate_body DEPTH_CONFIG exampleModels exampleVisible
                       "createdBy" "updatedBy" (fun _ _ _ => None)
                       "shared.button" buttonOptions
                       ["blocks"; "dynamic-zone.hero"; "ctas"]
  = Some (JObj [])
  ∧ ¬ guardFires DEPTH_CONFIG exampleModels "shared.button" buttonOptions
                 ["blocks"; "dynamic-zone.hero"; "ctas"]
  ∧ ¬ branchesEndAtGuards DEPTH_CONFIG exampleModels exampleVisible
                          "createdBy" "updatedBy".
Proof.
  assert (¬ guardFires DEPTH_CONFIG exampleModels "shared.button"
                       buttonOptions ["blocks"; "dynamic-zone.hero"; "ctas"])
    as Hguards.
  { intros [Hstop|[[Hvisited _]|Hmodel]].
    - vm_compute in Hstop. discriminate Hstop.
    - assert (bool_decide ("shared.button" ∈ visitedOf buttonOptions) = false)
        as Hnot by (vm_compute; reflexivity).
      by apply bool_decide_eq_false in Hnot.
    - vm_compute in Hmodel. discriminate Hmodel. }
  split; [vm_compute; reflexivity|]. split; [done|].
  intros Hends. apply Hguards, Hends.
  unfold returnsWithoutRecursing. eexists. vm_compute. reflexivity.
Qed.

Lemma shouldStopAtCurrentDepth_precedence_witness :
  shouldStopAtCurrentDepth exampleConfig (Some "api::category.category") 2
                           ["category"]
  = true.
Proof.
  apply (proj1 (proj2 (shouldStopAtCurrentDepth_precedence
                         exampleConfig "api::category.category" 2
                         ["category"]))).
  - right. intros Hin%objectPrototype_spec. discriminate Hin.
  - apply stop_medium; [reflexivity| |by left|lia].
    intros Hin%includes_Some. discriminate Hin.
Defined.


Lemma shallow_target_is_flat_witness :
  getDeepPopulate DEPTH_CONFIG exampleModels exampleVisible
                  "createdBy" "updatedBy" "api::user.user"
                  relatedOptions ["author"]
  = JStr "*".
Proof.
  apply (proj1 (shallow_target_is_flat
                  exampleModels exampleVisible "createdBy" "updatedBy"
                  "api::user.user" relatedOptions ["author"]
                  ltac:(simpl; left))).
  - vm_compute. discriminate.
  - reflexivity.
Defined.

(** C4 as stated fails: [api::role.role] is in the shallow set, and at
    depth 0 its relation [articles] carries a nested directive. *)
Lemma shallow_root_not_flat :
  "api::role.role" ∈ shallowPopulate DEPTH_CONFIG
  ∧ ¬ shallowRootIsFlat DEPTH_CONFIG exampleModels exampleVisible
        "createdBy" "updatedBy" "api::role.role".
Proof.
  split; [simpl; right; left|].
  intros Hflat.
  pose proof (Hflat roleModel _ "articles" "oneToMany"
                    (Some "api::article.article") _
                    eq_refl role_directive
                    ltac:(simpl; right; right; left) eq_refl) as Hv.
  discriminate Hv.
Qed.

Lemma dynamiczone_on_variants_witness :
  ∃ fields variants,
    getDeepPopulate DEPTH_CONFIG exampleModels exampleVisible
                    "createdBy" "updatedBy" "api::article.article"
                    noOptions []
    = JObj fields
    ∧ NoDup fields.*1
    ∧ ("blocks", JObj [("on", JObj variants)]) ∈ fields
    ∧ NoDup variants.*1
    ∧ (∀ componentUID,
          componentUID ∈ variants.*1
          ↔ componentUID ∈ ["dynamic-zone.hero"; "dynamic-zone.cta"])
    ∧ (∀ componentUID,
          componentUID ∈ ["dynamic-zone.hero"; "dynamic-zone.cta"] →
          (componentUID,
           JObj [("populate",
                  match
                    getDeepPopulate DEPTH_CONFIG exampleModels exampleVisible
                      "createdBy" "updatedBy" componentUID
                      {| relationalFields := None;
                         maxDepth := Some 3;
                         currentDepth := Some (0 + 1);
                         visitedUIDs := Some (∅ ∪ {["api::article.article"]});
                         depthLimits := None |}
                      ([] ++ ["blocks"; componentUID])
                  with
                  | JObj (field :: rest) => JObj (field :: rest)
                  | _ => JStr "*"
                  end)])
          ∈ variants)
    ∧ (2 ≤ 0 →
       ∀ componentUID,
         componentUID ∈ ["dynamic-zone.hero"; "dynamic-zone.cta"] →
         (componentUID, JObj [("populate", JStr "*")]) ∈ variants).
Proof.
  apply (dynamiczone_on_variants
           exampleModels exampleVisible "createdBy" "updatedBy"
           "api::article.article" noOptions [] articleModel "blocks"
           (Some ["dynamic-zone.hero"; "dynamic-zone.cta"])).
  - reflexivity.
  - reflexivity.
  - reflexivity.
  - simpl. do 7 right. left.
Defined.


Lemma getDeepPopulate_store_frame_witness :
  ∃ σ',
    getDeepPopulate_store DEPTH_CONFIG exampleModels exampleVisible
                          "createdBy" "updatedBy" 9 "api::article.article"
                          storedOptions ["articles"]
                          [{["api::category.category"]}]
    = Some (getDeepPopulate DEPTH_CONFIG exampleModels exampleVisible
                            "createdBy" "updatedBy" "api::article.article"
                            (optionsIn [{["api::category.category"]}]
                                       storedOptions)
                            ["articles"],
            σ')
    ∧ (∀ ref, (ref < 1)%nat →
              σ' !! ref
              = ([{["api::category.category"]}] : list (gset string)) !! ref)
    ∧ optionsIn σ' storedOptions
      = optionsIn [{["api::category.category"]}] storedOptions.
Proof.
  apply (getDeepPopulate_store_frame
           DEPTH_CONFIG exampleModels exampleVisible "createdBy" "updatedBy"
           9 "api::article.article" storedOptions ["articles"]
           [{["api::category.category"]}]).
  - intros ref [= <-]. simpl. lia.
  - vm_compute. lia.
Defined.

Lemma deepPopulate_injects_witness :
  injectsDirective DEPTH_CONFIG exampleModels exampleVisible
                   "createdBy" "updatedBy" exampleSingular collectionRequest.
Proof.
  apply (proj1 (deepPopulate_injects
                  DEPTH_CONFIG exampleModels exampleVisible
                  "createdBy" "updatedBy" exampleSingular collectionRequest)).
  repeat split; vm_compute; discriminate.
Defined.

(** C9 as stated fails: the four conditions hold for a request of one
    document by its identifier, and nothing is injected. *)
Lemma four_conditions_not_sufficient :
  ¬ (injectsDirective DEPTH_CONFIG exampleModels exampleVisible
                      "createdBy" "updatedBy" exampleSingular documentRequest
     ↔ interceptConditions documentRequest).
Proof.
  intros [_ Hinjects].
  assert (interceptConditions documentRequest) as Hopen by (repeat split).
  apply Hinjects in Hopen. by apply Hopen.
Qed.

(** ** Instances of the further properties *)

Lemma extractPathSegment_accepts_witness :
  extractPathSegment ("/api/" +:+ "articles" +:+ "/42") = "articles"
  ∧ extractPathSegment
      ("/api/" +:+ "articles" +:+ "/42" +:+ String "?" "sort=title")
    = "articles".
Proof.
  apply (extractPathSegment_accepts "articles" "/42" "sort=title").
  - discriminate.
  - reflexivity.
  - reflexivity.
Defined.

Lemma extractPathSegment_sound_witness :
  noSeparator "articles" = true
  ∧ ∃ tail, beforeQuery "/api/articles/42?populate=cover"
            = "/api/" +:+ "articles" +:+ tail
            ∧ matchesTail tail = true.
Proof.
  apply (extractPathSegment_sound "/api/articles/42?populate=cover").
  - reflexivity.
  - discriminate.
Defined.

Lemma extractPathSegment_rejects_id_witness :
  extractPathSegment
    ("/api/" +:+ "articles" +:+ String "/" "znrlzntu9ei5onjvwfaalu2v?locale=en")
  = "".
Proof.
  apply (extractPathSegment_rejects_id
           "articles" "znrlzntu9ei5onjvwfaalu2v?locale=en").
  - reflexivity.
  - reflexivity.
Defined.

Lemma deepPopulate_excluded_substring_witness :
  deepPopulate DEPTH_CONFIG exampleModels exampleVisible
               "createdBy" "updatedBy" exampleSingular seoPagesRequest
  = ([], seoPagesRequest).
Proof.
  apply (deepPopulate_excluded_substring
           DEPTH_CONFIG exampleModels exampleVisible "createdBy" "updatedBy"
           exampleSingular seoPagesRequest "" "-pages").
  right. reflexivity.
Defined.

Lemma deepPopulate_idempotent_witness :
  deepPopulate DEPTH_CONFIG exampleModels exampleVisible
               "createdBy" "updatedBy" exampleSingular populatedRequest
  = ([], populatedRequest).
Proof.
  apply (proj1 (deepPopulate_idempotent
                  DEPTH_CONFIG exampleModels exampleVisible
                  "createdBy" "updatedBy" exampleSingular populatedRequest)).
  reflexivity.
Defined.

Lemma shouldStopAtCurrentDepth_monotone_witness :
  shouldStopAtCurrentDepth exampleConfig (Some "api::user.user") 7 ["author"]
  = true.
Proof.
  apply (shouldStopAtCurrentDepth_monotone
           exampleConfig (Some "api::user.user") 1 7 ["author"]).
  - reflexivity.
  - lia.
Defined.

Lemma getDeepPopulate_keys_in_order_witness :
  ∃ model,
    getModel exampleModels "api::article.article" = Some model
    ∧ obj_keys
        (populateAttributes DEPTH_CONFIG exampleModels exampleVisible
           "createdBy" "updatedBy" "api::article.article" articleModel
           noOptions [])
      = (filter
           (λ entry,
              is_Some
                (attributeEntry DEPTH_CONFIG exampleModels exampleVisible
                   "createdBy" "updatedBy" "api::article.article" model
                   noOptions [] entry))
           (attributes model)).*1
    ∧ obj_keys
        (populateAttributes DEPTH_CONFIG exampleModels exampleVisible
           "createdBy" "updatedBy" "api::article.article" articleModel
           noOptions [])
      `sublist_of` (attributes model).*1
    ∧ NoDup
        (obj_keys
           (populateAttributes DEPTH_CONFIG exampleModels exampleVisible
              "createdBy" "updatedBy" "api::article.article" articleModel
              noOptions [])).
Proof.
  apply (getDeepPopulate_keys_in_order
           DEPTH_CONFIG exampleModels exampleVisible "createdBy" "updatedBy"
           "api::article.article" noOptions []).
  vm_compute. reflexivity.
Defined.

Lemma excluded_field_never_key_witness :
  "blocks"
  ∉ obj_keys
      (populateAttributes tunedConfig exampleModels exampleVisible
         "createdBy" "updatedBy" "api::article.article" articleModel
         noOptions []).
Proof.
  apply (excluded_field_never_key
           tunedConfig exampleModels exampleVisible "createdBy" "updatedBy"
           "api::article.article" noOptions []).
  - vm_compute. reflexivity.
  - reflexivity.
Defined.


Lemma relation_key_iff_witness :
  "related"
  ∈ obj_keys
      (populateAttributes DEPTH_CONFIG exampleModels exampleVisible
         "createdBy" "updatedBy" "api::article.article" articleModel
         noOptions [])
  ↔ relationPopulated exampleVisible "createdBy" "updatedBy" articleModel
      noOptions "related" "manyToMany" = true.
Proof.
  apply (relation_key_iff
           DEPTH_CONFIG exampleModels exampleVisible "createdBy" "updatedBy"
           "api::article.article" noOptions [] _ articleModel "related"
           "manyToMany" (Some "api::article.article")).
  - reflexivity.
  - vm_compute. reflexivity.
  - simpl. do 2 right. left.
  - reflexivity.
  - reflexivity.
Defined.




Lemma directive_at_most_three_levels_witness :
  atMostLevels (Z.to_nat (3 - depthOf buttonOptions))
    (getDeepPopulate DEPTH_CONFIG exampleModels exampleVisible
                     "createdBy" "updatedBy" "shared.button" buttonOptions
                     ["blocks"; "dynamic-zone.hero"; "ctas"])
  ∧ atMostLevels 3
      (getDeepPopulate DEPTH_CONFIG exampleModels exampleVisible
                       "createdBy" "updatedBy" "shared.button" noOptions []).
Proof.
  apply (directive_at_most_three_levels
           exampleModels exampleVisible "createdBy" "updatedBy"
           "shared.button" buttonOptions
           ["blocks"; "dynamic-zone.hero"; "ctas"]).
  - discriminate.
  - reflexivity.
Defined.

Lemma shipped_path_irrelevant_witness :
  getDeepPopulate DEPTH_CONFIG exampleModels exampleVisible
                  "createdBy" "updatedBy" "api::category.category"
                  relatedOptions ["category"]
  = getDeepPopulate DEPTH_CONFIG exampleModels exampleVisible
                    "createdBy" "updatedBy" "api::category.category"
                    relatedOptions ["blocks"; "dynamic-zone.hero"; "topic"].
Proof.
  apply (shipped_path_irrelevant
           exampleModels exampleVisible "createdBy" "updatedBy"
           "api::category.category" relatedOptions
           ["category"] ["blocks"; "dynamic-zone.hero"; "topic"]).
  - split; discriminate.
  - reflexivity.
Defined.
